(** * Borislavv/logger: the asynchronous logrus engine (pkg/logger/logrus.go)

    A shallow embedding of the engine: the configuration holder, the record
    types queued by the producers, the field merge done by the drain loops,
    the output resolver, and the two buffered channels with their drain
    goroutines and the shutdown closure as an interleaving transition
    system over Go's channel operations. *)

From Stdlib Require Import ZArith Lia Ascii String.
From stdpp Require Import base strings list gmap.

Open Scope Z_scope.
Open Scope string_scope.

(** ** Go values *)

(** A dynamically typed Go value ([interface{}] / [any]).  [any_nil] is the
    nil interface, which is what [context.Context.Value] returns for a key
    it does not hold. *)
Inductive any : Type :=
| any_nil
| any_string (s : string)
| any_int (z : Z)
| any_bool (b : bool)
| any_opaque (tag : N).

#[global] Instance any_eq_dec : EqDecision any.
Proof. solve_decision. Defined.

Definition is_nil (v : any) : bool :=
  match v with any_nil => true | _ => false end.

(** A non-nil value of the [error] interface: its identity, the text its
    [Error()] method returns and whether it reports a missing file.  The
    interface value itself may be nil ([None]). *)
Record error_value : Type := {
  err_id : N;
  err_text : string;
  err_not_exist : bool;  (* whether [os.IsNotExist] recognises it *)
}.

#[global] Instance error_value_eq_dec : EqDecision error_value.
Proof. solve_decision. Defined.

Definition error : Type := option error_value.

(** What a Go call does: it returns, it panics, or it blocks the calling
    goroutine (a channel operation that cannot proceed yet). *)
Inductive outcome (A : Type) : Type :=
| Returns (a : A)
| Panics (reason : string)
| Blocks.
Arguments Returns {A} a.
Arguments Panics {A} reason.
Arguments Blocks {A}.

(** [e.Error()]: calling a method on the nil interface is a nil dereference. *)
Definition error_Error (e : error) : outcome string :=
  match e with
  | Some v => Returns (err_text v)
  | None => Panics "invalid memory address or nil pointer dereference"
  end.

(** [map[string]interface{}]; a nil map and an empty map read alike. *)
Abbreviation GoFields := (gmap string any).

(** A [context.Context], as far as the engine reads it: [ctx.Value(key)] for
    string keys. *)
Definition Context : Type := string → any.

Definition Background : Context := λ _, any_nil.

Definition WithValue (parent : Context) (key : string) (val : any) : Context :=
  λ k, if decide (k = key) then val else parent k.

(** ** pkg/logger/enum *)

(** Modelled from the spec: the enum package is not part of the sources at
    hand; the spec lists the severity names [debug|info|warning|error|fatal|
    panic], the output names [stdout|stderr|/dev/null] and the format names
    [text|json]. *)
Module loggerenum.
Definition DebugLvl : string := "debug".
Definition InfoLvl : string := "info".
Definition WarningLvl : string := "warning".
Definition ErrorLvl : string := "error".
Definition FatalLvl : string := "fatal".
Definition PanicLvl : string := "panic".
Definition Stdout : string := "stdout".
Definition Stderr : string := "stderr".
Definition DevNull : string := "/dev/null".
Definition TextFormat : string := "text".
Definition JsonFormat : string := "json".
End loggerenum.

(** ** pkg/logger/config *)

Module loggerconfig.
Record Config : Type := {
  BufferCapacity : Z;
  Level : string;
  Output : string;
  Formatter : string;
  LogsDir : string;
  ContextExtraFields : list string;
}.

Definition GetBufferCapacity (c : Config) : Z := BufferCapacity c.
Definition GetLoggerLevel (c : Config) : string := Level c.
Definition GetLoggerOutput (c : Config) : string := Output c.
Definition GetLoggerFormatter (c : Config) : string := Formatter c.
Definition GetLoggerLogsDir (c : Config) : string := LogsDir c.
Definition GetLoggerContextExtraFields (c : Config) : list string :=
  ContextExtraFields c.
End loggerconfig.

(** ** pkg/logger/dto *)

(** Modelled from the spec: the dto package is not part of the sources at
    hand.  A record carries the context, the severity name, the payload, the
    caller's fields and the call site captured at construction; the call
    site is kept as the map that [CallerFields()] returns (function, file
    and line), and is an argument of the constructor because capturing it
    reads the goroutine's stack. *)
Module loggerdto.
Record MsgDto : Type := {
  msg_Ctx : Context;
  msg_Level : string;
  msg_Msg : string;
  msg_Fields : GoFields;
  msg_caller : GoFields;
}.

Record ErrDto : Type := {
  err_Ctx : Context;
  err_Level : string;
  err_Err : error;
  err_Fields : GoFields;
  err_caller : GoFields;
}.

Definition NewMsg (caller : GoFields) (ctx : Context) (level msg : string)
    (fields : GoFields) : MsgDto :=
  {| msg_Ctx := ctx; msg_Level := level; msg_Msg := msg;
     msg_Fields := fields; msg_caller := caller |}.

Definition NewErr (caller : GoFields) (ctx : Context) (level : string)
    (err : error) (fields : GoFields) : ErrDto :=
  {| err_Ctx := ctx; err_Level := level; err_Err := err;
     err_Fields := fields; err_caller := caller |}.

Definition msg_CallerFields (m : MsgDto) : GoFields := msg_caller m.
Definition err_CallerFields (e : ErrDto) : GoFields := err_caller e.
End loggerdto.

(** ** The writer boundary (github.com/sirupsen/logrus) *)

Module logrus.
Inductive Level : Type :=
| PanicLevel | FatalLevel | ErrorLevel | WarnLevel
| InfoLevel | DebugLevel | TraceLevel.

#[global] Instance Level_eq_dec : EqDecision Level.
Proof. solve_decision. Defined.

Inductive Formatter : Type := TextFormatter | JSONFormatter.

(** The sink passed to [SetOutput], named by the file it writes to. *)
Inductive Output : Type :=
| OutStdout | OutStderr | OutFile (name : string) | OutNil.

Record Logger : Type := {
  lg_Level : Level;
  lg_Formatter : Formatter;
  lg_Out : Output;
}.

(** [logrus.New()]: info level, text formatter, standard error. *)
Definition New : Logger :=
  {| lg_Level := InfoLevel; lg_Formatter := TextFormatter; lg_Out := OutStderr |}.
Definition SetLevel (lg : Logger) (lv : Level) : Logger :=
  {| lg_Level := lv; lg_Formatter := lg_Formatter lg; lg_Out := lg_Out lg |}.
Definition SetFormatter (lg : Logger) (f : Formatter) : Logger :=
  {| lg_Level := lg_Level lg; lg_Formatter := f; lg_Out := lg_Out lg |}.
Definition SetOutput (lg : Logger) (o : Output) : Logger :=
  {| lg_Level := lg_Level lg; lg_Formatter := lg_Formatter lg; lg_Out := o |}.

(** An entry under construction: the fields accumulated so far. *)
Record Entry : Type := { Data : GoFields }.

Definition NewEntry : Entry := {| Data := ∅ |}.

(** [entry.WithFields(fields)]: a new entry holding the old data with
    every key of [fields] set on top of it.  Values are data values here;
    the library's refusal of function-typed values is outside the model. *)
Definition WithFields (e : Entry) (fields : GoFields) : Entry :=
  {| Data := fields ∪ Data e |}.

(** One call of [entry.Log(level, text)], as the writer receives it.  What
    the library then does with the call (level filter, formatting, the
    write to the sink) lies beyond this boundary; its panic at the panic
    level does not, see [panicsAfterWrite]. *)
Record LogCall : Type := {
  lc_Level : Level;
  lc_Message : string;
  lc_Data : GoFields;
}.

Definition Log (e : Entry) (lv : Level) (text : string) : LogCall :=
  {| lc_Level := lv; lc_Message := text; lc_Data := Data e |}.

(** After the entry has been written, [Entry.Log] panics with the entry
    when the level is the panic level ([if level <= PanicLevel]); no other
    level makes it panic or exit. *)
Definition panicsAfterWrite (lv : Level) : bool :=
  bool_decide (lv = PanicLevel).

(** The value of that panic, as the runtime prints its type. *)
Definition panicValue : string := "(*logrus.Entry)".
End logrus.

(** ** pkg/logger: the engine's immutable part *)

Record Logrus : Type := {
  logger : logrus.Logger;
  contextExtraFields : list string;
}.

Definition getLevel (level : string) : logrus.Level :=
  if decide (level = loggerenum.InfoLvl) then logrus.InfoLevel
  else if decide (level = loggerenum.WarningLvl) then logrus.WarnLevel
  else if decide (level = loggerenum.ErrorLvl) then logrus.ErrorLevel
  else if decide (level = loggerenum.FatalLvl) then logrus.FatalLevel
  else if decide (level = loggerenum.PanicLvl) then logrus.PanicLevel
  else logrus.DebugLevel.

Definition getFormat (formatter : string) : logrus.Formatter :=
  if decide (formatter = loggerenum.TextFormat) then logrus.TextFormatter
  else logrus.JSONFormatter.

(** [fieldsFromContext]: one pass over the configured keys, storing every
    non-nil context value under its key. *)
Definition fieldsFromContext (l : Logrus) (ctx : Context) : GoFields :=
  foldl (λ (fields : GoFields) (field : string),
           let value := ctx field in
           if is_nil value then fields else <[field := value]> fields)
        ∅ (contextExtraFields l).

(** The receiver chain of one iteration of [handleMessages]. *)
Definition msgEntry (l : Logrus) (msg : loggerdto.MsgDto) : logrus.Entry :=
  logrus.WithFields
    (logrus.WithFields
       (logrus.WithFields logrus.NewEntry (loggerdto.msg_Fields msg))
       (fieldsFromContext l (loggerdto.msg_Ctx msg)))
    (loggerdto.msg_CallerFields msg).

(** The receiver chain of one iteration of [handleErrors]. *)
Definition errEntry (l : Logrus) (err : loggerdto.ErrDto) : logrus.Entry :=
  logrus.WithFields
    (logrus.WithFields
       (logrus.WithFields logrus.NewEntry (loggerdto.err_Fields err))
       (fieldsFromContext l (loggerdto.err_Ctx err)))
    (loggerdto.err_CallerFields err).

(** The call that the body of the [handleMessages] loop makes for one
    record.  Whether the writer comes back from it depends on the level
    ([logrus.panicsAfterWrite]); the loop step [handleMessages] below acts
    on that. *)
Definition handleMessage (l : Logrus) (msg : loggerdto.MsgDto)
    : outcome logrus.LogCall :=
  Returns (logrus.Log (msgEntry l msg)
             (getLevel (loggerdto.msg_Level msg)) (loggerdto.msg_Msg msg)).

(** The call that the body of the [handleErrors] loop makes for one
    record: the message text is [err.Err.Error()], evaluated before [Log]
    is entered, so that a nil error panics before the writer is called.
    As for messages, the writer's own panic at the panic level is acted on
    in the loop step [handleErrors] below. *)
Definition handleError (l : Logrus) (err : loggerdto.ErrDto)
    : outcome logrus.LogCall :=
  match error_Error (loggerdto.err_Err err) with
  | Returns text =>
      Returns (logrus.Log (errEntry l err)
                 (getLevel (loggerdto.err_Level err)) text)
  | Panics reason => Panics reason
  | Blocks => Blocks
  end.

(** ** The standard library functions the output resolver calls *)

Module gostrings.
Fixpoint HasPrefix (s prefix : string) : bool :=
  match prefix, s with
  | EmptyString, _ => true
  | String _ _, EmptyString => false
  | String c prefix', String d s' =>
      if decide (c = d) then HasPrefix s' prefix' else false
  end.

(** [strings.Contains(s, substr)]: [substr] occurs somewhere within [s]. *)
Fixpoint Contains (s substr : string) : bool :=
  HasPrefix s substr
  || match s with
     | EmptyString => false
     | String _ s' => Contains s' substr
     end.

(** [strings.Join(elems, sep)]. *)
Fixpoint Join (elems : list string) (sep : string) : string :=
  match elems with
  | [] => ""
  | [e] => e
  | e :: rest => e ++ sep ++ Join rest sep
  end.
End gostrings.

(** [path/filepath] on a Unix system: the separator is the slash and there
    are no volume names. *)
Module filepath.
Definition Separator : ascii := "/"%char.

Definition IsPathSeparator (c : ascii) : bool := bool_decide (c = Separator).

(** The elements of a path: the pieces between separators. *)
Fixpoint elements (path : string) : list string :=
  match path with
  | EmptyString => [""]
  | String c rest =>
      if IsPathSeparator c then "" :: elements rest
      else match elements rest with
           | e :: es => String c e :: es
           | [] => [String c ""]
           end
  end.

Definition rooted (path : string) : bool :=
  match path with
  | String c _ => IsPathSeparator c
  | EmptyString => false
  end.

(** One element of [Clean]'s scan.  [dotdot] counts the leading [..]
    elements that can no longer be cancelled, [out] holds the elements
    written after them, last first. *)
Definition cleanElement (isRooted : bool) (acc : nat * list string)
    (e : string) : nat * list string :=
  let '(dotdot, out) := acc in
  if decide (e = "") then acc
  else if decide (e = ".") then acc
  else if decide (e = "..") then
    match out with
    | _ :: out' => (dotdot, out')
    | [] => if isRooted then acc else (S dotdot, [])
    end
  else (dotdot, e :: out).

(** [filepath.Clean]: drop empty and [.] elements, cancel [..] against the
    element before it, keep a leading separator, and turn the empty
    result into [.]. *)
Definition Clean (path : string) : string :=
  if decide (path = "") then "."
  else
    let '(dotdot, out) :=
      foldl (cleanElement (rooted path)) (0%nat, []) (elements path) in
    let kept := (replicate dotdot ".." ++ rev out)%list in
    if rooted path then String Separator (gostrings.Join kept "/")
    else match kept with
         | [] => "."
         | _ => gostrings.Join kept "/"
         end.

(** [filepath.Join]: the elements from the first non-empty one onwards,
    joined by the separator and cleaned; the empty string if all are
    empty. *)
Fixpoint Join (elem : list string) : string :=
  match elem with
  | [] => ""
  | e :: rest =>
      if decide (e = "") then Join rest
      else Clean (gostrings.Join elem "/")
  end.

Fixpoint hasSeparator (path : string) : bool :=
  match path with
  | EmptyString => false
  | String c rest => IsPathSeparator c || hasSeparator rest
  end.

(** [path[:i+1]] for [i] the index of the last separator. *)
Fixpoint throughLastSeparator (path : string) : string :=
  match path with
  | EmptyString => ""
  | String c rest =>
      if IsPathSeparator c || hasSeparator rest
      then String c (throughLastSeparator rest)
      else ""
  end.

(** [filepath.Dir]: all but the last element of the path, cleaned. *)
Definition Dir (path : string) : string :=
  Clean (throughLastSeparator path).
End filepath.

(** The [os] package, as far as the resolver uses it. *)
Module os.
(** An [*os.File]: one of the two process streams or a handle that
    [OpenFile] returned.  A nil pointer is [None]. *)
Inductive File : Type :=
| Stdout
| Stderr
| Handle (name : string) (flag perm : Z).

#[global] Instance File_eq_dec : EqDecision File.
Proof. solve_decision. Defined.

Definition DevNull : string := "/dev/null".

(** Open flags (Linux values) and the octal permission literals. *)
Definition O_WRONLY : Z := 1.
Definition O_RDWR : Z := 2.
Definition O_CREATE : Z := 64.
Definition O_APPEND : Z := 1024.
Definition perm_0644 : Z := 420.
Definition perm_0755 : Z := 493.
Definition perm_0666 : Z := 438.

Definition IsNotExist (err : error) : bool :=
  match err with
  | Some v => err_not_exist v
  | None => false
  end.

(** A system call the resolver can issue. *)
Inductive syscall : Type :=
| SysGetwd
| SysReadDir (name : string)
| SysMkdirAll (path : string) (perm : Z)
| SysOpenFile (name : string) (flag perm : Z).

#[global] Instance syscall_eq_dec : EqDecision syscall.
Proof. solve_decision. Defined.

(** The operating system under the process: each call answers from the
    current world and may change it. *)
Class System (W : Type) : Type := {
  sys_Getwd : W → (string * error) * W;
  sys_ReadDir : string → W → error * W;
  sys_MkdirAll : string → Z → W → error * W;
  sys_OpenFile : string → Z → Z → W → (option File * error) * W;
}.

(** Code that talks to the operating system: a function of the world and
    of the calls issued so far. *)
Definition IO (W A : Type) : Type := W * list syscall → A * (W * list syscall).

Definition ret {W A} (a : A) : IO W A := λ st, (a, st).

Definition bind {W A B} (m : IO W A) (k : A → IO W B) : IO W B :=
  λ st, let '(a, st') := m st in k a st'.

#[global] Instance IO_ret W : MRet (IO W) := λ A, ret.
#[global] Instance IO_bind W : MBind (IO W) := λ A B k m, bind m k.

Definition issue {W A} (call : syscall) (f : W → A * W) : IO W A :=
  λ '(w, calls), let '(a, w') := f w in (a, (w', (calls ++ [call])%list)).

Definition Getwd `{System W} : IO W (string * error) :=
  issue SysGetwd sys_Getwd.
Definition ReadDir `{System W} (name : string) : IO W error :=
  issue (SysReadDir name) (sys_ReadDir name).
Definition MkdirAll `{System W} (path : string) (perm : Z) : IO W error :=
  issue (SysMkdirAll path perm) (sys_MkdirAll path perm).
Definition OpenFile `{System W} (name : string) (flag perm : Z)
    : IO W (option File * error) :=
  issue (SysOpenFile name flag perm) (sys_OpenFile name flag perm).
End os.

(** ** The output resolver *)

(** The path computed by [getOutput] between [os.Getwd] and [os.ReadDir]:
    the logs directory under the working directory, with the default file
    name joined to it when the [strings.Contains] test says so. *)
Definition logFilePath (rootDir logsDir : string) : string :=
  let path := filepath.Join [rootDir; logsDir] in
  if negb (gostrings.Contains "." path)
  then filepath.Join [path; "app.log"]
  else path.

Section Resolver.
Context {W : Type} `{os.System W}.

Definition getOutput (output logsDir : string)
    : os.IO W (option os.File * error) :=
  if decide (output = loggerenum.Stdout) then
    os.ret (Some os.Stdout, None)
  else if decide (output = loggerenum.Stderr) then
    os.ret (Some os.Stderr, None)
  else if bool_decide (output = loggerenum.DevNull)
          || bool_decide (output = "") then
    os.OpenFile os.DevNull os.O_WRONLY os.perm_0644
  else
    '(rootDir, err) ← os.Getwd ;
    match err with
    | Some _ => os.ret (None, err)
    | None =>
        let path := logFilePath rootDir logsDir in
        err ← os.ReadDir (filepath.Dir path) ;
        let continue :=
          '(f, err) ← os.OpenFile path
                        (Z.lor (Z.lor os.O_CREATE os.O_APPEND) os.O_RDWR)
                        os.perm_0666 ;
          match err with
          | Some _ => os.ret (None, err)
          | None => os.ret (f, None)
          end in
        match err with
        | None => continue
        | Some _ =>
            if os.IsNotExist err then
              err ← os.MkdirAll (filepath.Dir path) os.perm_0755 ;
              match err with
              | Some _ => os.ret (None, err)
              | None => continue
              end
            else os.ret (None, err)
        end
    end.

(** [NewOutput]: the resolved file and, on success, a release action for
    it (the file that the action closes). *)
Definition NewOutput (cfg : loggerconfig.Config)
    : os.IO W (option os.File * option os.File * error) :=
  '(out, err) ← getOutput (loggerconfig.GetLoggerOutput cfg)
                          (loggerconfig.GetLoggerLogsDir cfg) ;
  match err with
  | Some _ => os.ret (None, None, err)
  | None => os.ret (out, out, err)
  end.
End Resolver.

(** ** Go channels *)

(** The runtime's channel, with every operation atomic (each runs under the
    channel's lock).  A goroutine blocked in a send is a send that has not
    happened yet, so only parked receivers are kept; each channel of the
    engine has one receiver, its drain goroutine, hence [recvq] is a flag. *)
Module gochan.
Record hchan (A : Type) : Type := {
  dataqsiz : Z;     (* capacity given to make *)
  qbuf : list A;    (* buffered elements, oldest first *)
  closed : bool;
  recvq : bool;     (* the receiver is parked waiting for a value *)
}.
Arguments dataqsiz {A} _.
Arguments qbuf {A} _.
Arguments closed {A} _.
Arguments recvq {A} _.

Inductive received (A : Type) : Type :=
| RecvValue (x : A)
| RecvClosed
| RecvParked.
Arguments RecvValue {A} x.
Arguments RecvClosed {A}.
Arguments RecvParked {A}.

Section Operations.
Context {A : Type}.

Definition qcount (c : hchan A) : Z := Z.of_nat (length (qbuf c)).

Definition emptyChan (size : Z) : hchan A :=
  {| dataqsiz := size; qbuf := []; closed := false; recvq := false |}.

(** [make(chan T, size)]; [maxElems] is the largest element count the
    runtime's allocator accepts on the platform. *)
Definition makechan (maxElems size : Z) : outcome (hchan A) :=
  if bool_decide (size < 0) || bool_decide (maxElems < size)
  then Panics "makechan: size out of range"
  else Returns (emptyChan size).

(** The runtime's [full]: whether a send on [c] would block. *)
Definition full (c : hchan A) : bool :=
  if decide (dataqsiz c = 0) then negb (recvq c)
  else bool_decide (qcount c = dataqsiz c).

(** [c <- x].  The second component is the value handed directly to the
    parked receiver, if that is how the send completed. *)
Definition chansend (c : hchan A) (x : A) : outcome (hchan A * option A) :=
  if closed c then Panics "send on closed channel"
  else if recvq c then
    Returns ({| dataqsiz := dataqsiz c; qbuf := qbuf c; closed := closed c;
                recvq := false |}, Some x)
  else if bool_decide (qcount c < dataqsiz c) then
    Returns ({| dataqsiz := dataqsiz c; qbuf := (qbuf c ++ [x])%list;
                closed := closed c; recvq := recvq c |}, None)
  else Blocks.

(** One attempt of [<-c]: take the oldest buffered element, or observe
    that the channel is closed and drained, or park. *)
Definition chanrecv (c : hchan A) : hchan A * received A :=
  match qbuf c with
  | x :: rest =>
      ({| dataqsiz := dataqsiz c; qbuf := rest; closed := closed c;
          recvq := recvq c |}, RecvValue x)
  | [] =>
      if closed c then (c, RecvClosed)
      else ({| dataqsiz := dataqsiz c; qbuf := []; closed := closed c;
               recvq := true |}, RecvParked)
  end.

(** [close(c)]: parked receivers are released. *)
Definition closechan (c : hchan A) : outcome (hchan A) :=
  if closed c then Panics "close of closed channel"
  else Returns {| dataqsiz := dataqsiz c; qbuf := qbuf c; closed := true;
                  recvq := false |}.
End Operations.
End gochan.

(** ** One queue and its drain goroutine *)

(** The goroutine that runs a logging method. *)
Definition producer : Type := nat.

(** A queued record together with the producer that sent it.  The tag is
    bookkeeping of the model: no transition reads it. *)
Record tagged (A : Type) : Type := { sender : producer; payload : A }.
Arguments sender {A} _.
Arguments payload {A} _.

(** Where a drain goroutine stands in [for x := range ch { ... }]. *)
Inductive loop (A : Type) : Type :=
| AtReceive                    (* about to receive *)
| Parked                       (* blocked in the receive *)
| Handling (x : tagged A)      (* in the loop body with [x] *)
| Exited                       (* left the loop; [wg.Done()] has run *)
| Panicked (held : option (tagged A)).
    (* the loop body panicked, with [held] still in hand if it had not
       reached the writer; the deferred [wg.Done()] has not run yet *)
Arguments AtReceive {A}.
Arguments Parked {A}.
Arguments Handling {A} x.
Arguments Exited {A}.
Arguments Panicked {A} held.

Record pipeline (A : Type) : Type := {
  ch : gochan.hchan (tagged A);
  drain : loop A;
  enqueued : list (tagged A);  (* history: every completed send, in order *)
}.
Arguments ch {A} _.
Arguments drain {A} _.
Arguments enqueued {A} _.

(** What one step of a drain goroutine did. *)
Inductive drainEvent (A : Type) : Type :=
| Received
| Park
| Logged (x : tagged A) (call : logrus.LogCall)
| Done.
Arguments Received {A}.
Arguments Park {A}.
Arguments Logged {A} x call.
Arguments Done {A}.

Section Pipeline.
Context {A : Type}.

(** [ch <- x] by producer [who]. *)
Definition enqueue (who : producer) (x : A) (p : pipeline A)
    : outcome (pipeline A) :=
  let item := {| sender := who; payload := x |} in
  match gochan.chansend (ch p) item with
  | Returns (c, handed) =>
      Returns {| ch := c;
                 drain := match handed with
                          | Some y => Handling y
                          | None => drain p
                          end;
                 enqueued := (enqueued p ++ [item])%list |}
  | Panics reason => Panics reason
  | Blocks => Blocks
  end.

(** One step of [for x := range ch { handle x }] with its deferred
    [wg.Done()]. *)
Definition drainStep (handle : A → outcome logrus.LogCall) (p : pipeline A)
    : outcome (pipeline A * drainEvent A) :=
  match drain p with
  | AtReceive =>
      match gochan.chanrecv (ch p) with
      | (c, gochan.RecvValue x) =>
          Returns ({| ch := c; drain := Handling x;
                      enqueued := enqueued p |}, Received)
      | (c, gochan.RecvClosed) =>
          Returns ({| ch := c; drain := Exited;
                      enqueued := enqueued p |}, Done)
      | (c, gochan.RecvParked) =>
          Returns ({| ch := c; drain := Parked;
                      enqueued := enqueued p |}, Park)
      end
  | Parked =>
      if gochan.closed (ch p)
      then Returns ({| ch := ch p; drain := Exited;
                       enqueued := enqueued p |}, Done)
      else Blocks
  | Handling x =>
      match handle (payload x) with
      | Returns call =>
          Returns ({| ch := ch p; drain := AtReceive;
                      enqueued := enqueued p |}, Logged x call)
      | Panics reason => Panics reason
      | Blocks => Blocks
      end
  | Exited => Blocks
  | Panicked _ => Blocks
  end.

(** The records the drain goroutine holds or still has to receive. *)
Definition pending (p : pipeline A) : list (tagged A) :=
  (match drain p with
   | Handling x => [x]
   | Panicked (Some x) => [x]
   | _ => []
   end ++ gochan.qbuf (ch p))%list.
End Pipeline.

(** ** The engine *)

(** One call of the writer, with the record it was made for. *)
Inductive delivery : Type :=
| MsgDelivery (m : tagged loggerdto.MsgDto) (call : logrus.LogCall)
| ErrDelivery (e : tagged loggerdto.ErrDto) (call : logrus.LogCall).

(** Where the goroutine running the shutdown closure stands. *)
Inductive phase : Type :=
| Running        (* the closure has not run *)
| ClosedMsgCh    (* after [close(l.msgCh)] *)
| ClosedErrCh    (* after [close(l.errCh)], in [wg.Wait()] *)
| Returned.      (* [wg.Wait()] has returned *)

#[global] Instance phase_eq_dec : EqDecision phase.
Proof. solve_decision. Defined.

(** The mutable part of a [Logrus] and the goroutines around it.  An
    unrecovered panic ends the process: [crashed] holds its value, and
    from then on the process only dies (see [execDying]). *)
Record engine : Type := {
  msgs : pipeline loggerdto.MsgDto;   (* l.msgCh and handleMessages *)
  errs : pipeline loggerdto.ErrDto;   (* l.errCh and handleErrors *)
  wg : Z;                             (* the WaitGroup counter *)
  shutdown : phase;
  written : list delivery;            (* the writer's calls, in order *)
  crashed : option string;
}.

Definition msgCh (s : engine) := ch (msgs s).
Definition errCh (s : engine) := ch (errs s).

Definition setMsgs (s : engine) (p : pipeline loggerdto.MsgDto) : engine :=
  {| msgs := p; errs := errs s; wg := wg s; shutdown := shutdown s;
     written := written s; crashed := crashed s |}.
Definition setErrs (s : engine) (p : pipeline loggerdto.ErrDto) : engine :=
  {| msgs := msgs s; errs := p; wg := wg s; shutdown := shutdown s;
     written := written s; crashed := crashed s |}.
Definition setWg (s : engine) (n : Z) : engine :=
  {| msgs := msgs s; errs := errs s; wg := n; shutdown := shutdown s;
     written := written s; crashed := crashed s |}.
Definition setShutdown (s : engine) (ph : phase) : engine :=
  {| msgs := msgs s; errs := errs s; wg := wg s; shutdown := ph;
     written := written s; crashed := crashed s |}.
Definition write (s : engine) (d : delivery) : engine :=
  {| msgs := msgs s; errs := errs s; wg := wg s; shutdown := shutdown s;
     written := (written s ++ [d])%list; crashed := crashed s |}.
Definition crash (s : engine) (reason : string) : engine :=
  {| msgs := msgs s; errs := errs s; wg := wg s; shutdown := shutdown s;
     written := written s; crashed := Some reason |}.

Definition setCh {A} (p : pipeline A) (c : gochan.hchan (tagged A)) : pipeline A :=
  {| ch := c; drain := drain p; enqueued := enqueued p |}.

Definition setDrain {A} (p : pipeline A) (d : loop A) : pipeline A :=
  {| ch := ch p; drain := d; enqueued := enqueued p |}.

(** The record a drain goroutine has in hand. *)
Definition heldBy {A} (d : loop A) : option (tagged A) :=
  match d with
  | Handling x => Some x
  | _ => None
  end.

(** The result of [NewLogrus]: the handle, the engine its goroutines run on
    (the shutdown closure is the engine's [Cancel] action) and the error. *)
Record constructed : Type := {
  handle : option Logrus;
  started : engine;
  err : error;
}.

(** The engine as [NewLogrus] leaves it: both queues empty and open, both
    drain goroutines started after [wg.Add(2)], the closure not yet run. *)
Definition startEngine (msgCh : gochan.hchan (tagged loggerdto.MsgDto))
    (errCh : gochan.hchan (tagged loggerdto.ErrDto)) : engine :=
  {| msgs := {| ch := msgCh; drain := AtReceive; enqueued := [] |};
     errs := {| ch := errCh; drain := AtReceive; enqueued := [] |};
     wg := 2;
     shutdown := Running;
     written := [];
     crashed := None |}.

Definition NewLogrus (maxElems : Z) (cfg : loggerconfig.Config)
    (output : logrus.Output) : outcome constructed :=
  let lg := logrus.New in
  let lg := logrus.SetLevel lg (getLevel (loggerconfig.GetLoggerLevel cfg)) in
  let lg := logrus.SetFormatter lg
              (getFormat (loggerconfig.GetLoggerFormatter cfg)) in
  let lg := logrus.SetOutput lg output in
  let l := {| logger := lg;
              contextExtraFields :=
                loggerconfig.GetLoggerContextExtraFields cfg |} in
  match gochan.makechan maxElems (loggerconfig.GetBufferCapacity cfg) with
  | Returns msgCh =>
      match gochan.makechan maxElems (loggerconfig.GetBufferCapacity cfg) with
      | Returns errCh =>
          Returns {| handle := Some l;
                     started := startEngine msgCh errCh;
                     err := None |}
      | Panics reason => Panics reason
      | Blocks => Blocks
      end
  | Panics reason => Panics reason
  | Blocks => Blocks
  end.

(** *** The producer methods *)

Section Producers.
Variable who : producer.
(** The call site that [NewMsg] / [NewErr] captures. *)
Variable caller : GoFields.

Definition sendMsg (m : loggerdto.MsgDto) (s : engine) : outcome engine :=
  match enqueue who m (msgs s) with
  | Returns p => Returns (setMsgs s p)
  | Panics reason => Panics reason
  | Blocks => Blocks
  end.

Definition sendErr (e : loggerdto.ErrDto) (s : engine) : outcome engine :=
  match enqueue who e (errs s) with
  | Returns p => Returns (setErrs s p)
  | Panics reason => Panics reason
  | Blocks => Blocks
  end.

Definition DebugMsg (s : engine) (ctx : Context) (msg : string)
    (fields : GoFields) : outcome engine :=
  sendMsg (loggerdto.NewMsg caller ctx loggerenum.DebugLvl msg fields) s.
Definition InfoMsg (s : engine) (ctx : Context) (msg : string)
    (fields : GoFields) : outcome engine :=
  sendMsg (loggerdto.NewMsg caller ctx loggerenum.InfoLvl msg fields) s.
Definition WarningMsg (s : engine) (ctx : Context) (msg : string)
    (fields : GoFields) : outcome engine :=
  sendMsg (loggerdto.NewMsg caller ctx loggerenum.WarningLvl msg fields) s.
Definition ErrorMsg (s : engine) (ctx : Context) (msg : string)
    (fields : GoFields) : outcome engine :=
  sendMsg (loggerdto.NewMsg caller ctx loggerenum.ErrorLvl msg fields) s.
Definition FatalMsg (s : engine) (ctx : Context) (msg : string)
    (fields : GoFields) : outcome engine :=
  sendMsg (loggerdto.NewMsg caller ctx loggerenum.FatalLvl msg fields) s.
Definition PanicMsg (s : engine) (ctx : Context) (msg : string)
    (fields : GoFields) : outcome engine :=
  sendMsg (loggerdto.NewMsg caller ctx loggerenum.PanicLvl msg fields) s.
Definition LogMsg (s : engine) (ctx : Context) (msg level : string)
    (fields : GoFields) : outcome engine :=
  sendMsg (loggerdto.NewMsg caller ctx level msg fields) s.

(** [send; return err]. *)
Definition thenReturn (sent : outcome engine) (err : error)
    : outcome (engine * error) :=
  match sent with
  | Returns s' => Returns (s', err)
  | Panics reason => Panics reason
  | Blocks => Blocks
  end.

Definition Debug (s : engine) (ctx : Context) (err : error)
    (fields : GoFields) : outcome (engine * error) :=
  thenReturn
    (sendErr (loggerdto.NewErr caller ctx loggerenum.DebugLvl err fields) s)
    err.
Definition Info (s : engine) (ctx : Context) (err : error)
    (fields : GoFields) : outcome (engine * error) :=
  thenReturn
    (sendErr (loggerdto.NewErr caller ctx loggerenum.InfoLvl err fields) s)
    err.
Definition Warning (s : engine) (ctx : Context) (err : error)
    (fields : GoFields) : outcome (engine * error) :=
  thenReturn
    (sendErr (loggerdto.NewErr caller ctx loggerenum.WarningLvl err fields) s)
    err.
Definition Error (s : engine) (ctx : Context) (err : error)
    (fields : GoFields) : outcome (engine * error) :=
  thenReturn
    (sendErr (loggerdto.NewErr caller ctx loggerenum.ErrorLvl err fields) s)
    err.
Definition Fatal (s : engine) (ctx : Context) (err : error)
    (fields : GoFields) : outcome (engine * error) :=
  thenReturn
    (sendErr (loggerdto.NewErr caller ctx loggerenum.FatalLvl err fields) s)
    err.
Definition Panic (s : engine) (ctx : Context) (err : error)
    (fields : GoFields) : outcome (engine * error) :=
  thenReturn
    (sendErr (loggerdto.NewErr caller ctx loggerenum.PanicLvl err fields) s)
    err.
(** [Log] has no result. *)
Definition Log (s : engine) (ctx : Context) (err : error) (level : string)
    (fields : GoFields) : outcome engine :=
  sendErr (loggerdto.NewErr caller ctx level err fields) s.
End Producers.

(** *** The goroutines as a transition system *)

(** The message-form and the error-form methods of the [Logger] interface. *)
Inductive msgMethod : Type :=
| MDebugMsg | MInfoMsg | MWarningMsg | MErrorMsg | MFatalMsg | MPanicMsg
| MLogMsg (level : string).

Inductive errMethod : Type :=
| MDebug | MInfo | MWarning | MError | MFatal | MPanic
| MLog (level : string).

Definition callMsgMethod (who : producer) (caller : GoFields) (f : msgMethod)
    (s : engine) (ctx : Context) (msg : string) (fields : GoFields)
    : outcome engine :=
  match f with
  | MDebugMsg => DebugMsg who caller s ctx msg fields
  | MInfoMsg => InfoMsg who caller s ctx msg fields
  | MWarningMsg => WarningMsg who caller s ctx msg fields
  | MErrorMsg => ErrorMsg who caller s ctx msg fields
  | MFatalMsg => FatalMsg who caller s ctx msg fields
  | MPanicMsg => PanicMsg who caller s ctx msg fields
  | MLogMsg level => LogMsg who caller s ctx msg level fields
  end.

(** The result list of a call that returns one error. *)
Definition oneResult (r : outcome (engine * error))
    : outcome (engine * list error) :=
  match r with
  | Returns (s', e) => Returns (s', [e])
  | Panics reason => Panics reason
  | Blocks => Blocks
  end.

(** The result list of a call that returns nothing. *)
Definition noResult (r : outcome engine) : outcome (engine * list error) :=
  match r with
  | Returns s' => Returns (s', [])
  | Panics reason => Panics reason
  | Blocks => Blocks
  end.

(** A call of an error-form method, with the list of values it returns. *)
Definition callErrMethod (who : producer) (caller : GoFields) (f : errMethod)
    (s : engine) (ctx : Context) (err : error) (fields : GoFields)
    : outcome (engine * list error) :=
  match f with
  | MDebug => oneResult (Debug who caller s ctx err fields)
  | MInfo => oneResult (Info who caller s ctx err fields)
  | MWarning => oneResult (Warning who caller s ctx err fields)
  | MError => oneResult (Error who caller s ctx err fields)
  | MFatal => oneResult (Fatal who caller s ctx err fields)
  | MPanic => oneResult (Panic who caller s ctx err fields)
  | MLog level => noResult (Log who caller s ctx err level fields)
  end.

Inductive call : Type :=
| CallMsg (f : msgMethod) (ctx : Context) (msg : string) (fields : GoFields)
| CallErr (f : errMethod) (ctx : Context) (err : error) (fields : GoFields).

(** What can happen next: a producer goroutine completes a logging call, a
    drain goroutine takes a step, or the goroutine running the shutdown
    closure takes a step. *)
Inductive action : Type :=
| Produce (who : producer) (caller : GoFields) (c : call)
| DrainMessages
| DrainErrors
| Cancel.

Definition produce (who : producer) (caller : GoFields) (c : call) (s : engine)
    : outcome engine :=
  match c with
  | CallMsg f ctx msg fields => callMsgMethod who caller f s ctx msg fields
  | CallErr f ctx err fields =>
      match callErrMethod who caller f s ctx err fields with
      | Returns (s', _) => Returns s'
      | Panics reason => Panics reason
      | Blocks => Blocks
      end
  end.

(** A step of the [handleMessages] goroutine.  When the loop body panics
    the process is crashed and the goroutine is marked as unwinding: either
    the writer was called and then panicked (a record of panic level, which
    is in the writer's log), or the body panicked before the call (the
    record stays in the goroutine's hand). *)
Definition handleMessages (l : Logrus) (s : engine) : outcome engine :=
  match drainStep (handleMessage l) (msgs s) with
  | Returns (p, Logged x call) =>
      let s' := write (setMsgs s p) (MsgDelivery x call) in
      if logrus.panicsAfterWrite (logrus.lc_Level call)
      then Returns (crash (setMsgs s' (setDrain p (Panicked None)))
                      logrus.panicValue)
      else Returns s'
  | Returns (p, Done) => Returns (setWg (setMsgs s p) (wg s - 1))
  | Returns (p, _) => Returns (setMsgs s p)
  | Panics reason =>
      Returns (crash (setMsgs s (setDrain (msgs s)
                                   (Panicked (heldBy (drain (msgs s))))))
                 reason)
  | Blocks => Blocks
  end.

(** A step of the [handleErrors] goroutine, likewise. *)
Definition handleErrors (l : Logrus) (s : engine) : outcome engine :=
  match drainStep (handleError l) (errs s) with
  | Returns (p, Logged x call) =>
      let s' := write (setErrs s p) (ErrDelivery x call) in
      if logrus.panicsAfterWrite (logrus.lc_Level call)
      then Returns (crash (setErrs s' (setDrain p (Panicked None)))
                      logrus.panicValue)
      else Returns s'
  | Returns (p, Done) => Returns (setWg (setErrs s p) (wg s - 1))
  | Returns (p, _) => Returns (setErrs s p)
  | Panics reason =>
      Returns (crash (setErrs s (setDrain (errs s)
                                   (Panicked (heldBy (drain (errs s))))))
                 reason)
  | Blocks => Blocks
  end.

(** A step of the closure returned by [NewLogrus]:
    [close(l.msgCh); close(l.errCh); wg.Wait()].  Calling the closure again
    after it returned starts it over. *)
Definition cancel (s : engine) : outcome engine :=
  match shutdown s with
  | Running | Returned =>
      match gochan.closechan (msgCh s) with
      | Returns c => Returns (setShutdown (setMsgs s (setCh (msgs s) c)) ClosedMsgCh)
      | Panics reason => Panics reason
      | Blocks => Blocks
      end
  | ClosedMsgCh =>
      match gochan.closechan (errCh s) with
      | Returns c => Returns (setShutdown (setErrs s (setCh (errs s) c)) ClosedErrCh)
      | Panics reason => Panics reason
      | Blocks => Blocks
      end
  | ClosedErrCh =>
      if decide (wg s = 0) then Returns (setShutdown s Returned) else Blocks
  end.

Definition step (l : Logrus) (a : action) (s : engine) : outcome engine :=
  match a with
  | Produce who caller c => produce who caller c s
  | DrainMessages => handleMessages l s
  | DrainErrors => handleErrors l s
  | Cancel => cancel s
  end.

(** The state after action [a], if the action can happen in [s], up to the
    first panic: a blocked goroutine takes no step, a panic crashes the
    process, and a crashed process takes no step here (what it can still
    do while it dies is [execDying] below). *)
Definition exec (l : Logrus) (a : action) (s : engine) : option engine :=
  match crashed s with
  | Some _ => None
  | None =>
      match step l a s with
      | Returns s' => Some s'
      | Panics reason => Some (crash s reason)
      | Blocks => None
      end
  end.

Fixpoint run (l : Logrus) (trace : list action) (s : engine) : option engine :=
  match trace with
  | [] => Some s
  | a :: rest =>
      match exec l a s with
      | Some s' => run l rest s'
      | None => None
      end
  end.

Definition reachable (l : Logrus) (s0 s : engine) : Prop :=
  ∃ trace, run l trace s0 = Some s.

(** *** The dying process *)

(** Between a panic and the exit of the process the panicking goroutine
    runs its deferred calls and the other goroutines go on.  For a drain
    goroutine the deferred call is [wg.Done()]; the producers and the
    shutdown closure defer nothing. *)
Inductive dyingAction : Type :=
| Deferred               (* the deferred [wg.Done()] of a panicked loop *)
| Still (a : action).    (* a step of a goroutine that is still running *)

(** The deferred [wg.Done()] of a loop that panicked: the goroutine is
    gone and the counter is one lower. *)
Definition deferred (s : engine) : option engine :=
  match drain (msgs s), drain (errs s) with
  | Panicked _, _ =>
      Some (setWg (setMsgs s (setDrain (msgs s) Exited)) (wg s - 1))
  | _, Panicked _ =>
      Some (setWg (setErrs s (setDrain (errs s) Exited)) (wg s - 1))
  | _, _ => None
  end.

(** One step of a process that has panicked.  A goroutine that is still
    running steps as before; a further panic of a producer or of the
    closure adds nothing to a process that is already dying. *)
Definition execDying (l : Logrus) (d : dyingAction) (s : engine)
    : option engine :=
  match crashed s with
  | None => None
  | Some _ =>
      match d with
      | Deferred => deferred s
      | Still a =>
          match step l a s with
          | Returns s' => Some s'
          | Panics _ => None
          | Blocks => None
          end
      end
  end.

Fixpoint runDying (l : Logrus) (trace : list dyingAction) (s : engine)
    : option engine :=
  match trace with
  | [] => Some s
  | d :: rest =>
      match execDying l d s with
      | Some s' => runDying l rest s'
      | None => None
      end
  end.

(** *** What the claims observe *)

Fixpoint writtenMsgs (log : list delivery) : list (tagged loggerdto.MsgDto) :=
  match log with
  | [] => []
  | MsgDelivery m _ :: rest => m :: writtenMsgs rest
  | ErrDelivery _ _ :: rest => writtenMsgs rest
  end.

Fixpoint writtenErrs (log : list delivery) : list (tagged loggerdto.ErrDto) :=
  match log with
  | [] => []
  | MsgDelivery _ _ :: rest => writtenErrs rest
  | ErrDelivery e _ :: rest => e :: writtenErrs rest
  end.


(** The calls the writer received, in order. *)
Definition writerCalls (log : list delivery) : list logrus.LogCall :=
  (λ d, match d with MsgDelivery _ c | ErrDelivery _ c => c end) <$> log.

(** The severity name an error-form method stamps on its record. *)
Definition errMethodLevel (f : errMethod) : string :=
  match f with
  | MDebug => loggerenum.DebugLvl
  | MInfo => loggerenum.InfoLvl
  | MWarning => loggerenum.WarningLvl
  | MError => loggerenum.ErrorLvl
  | MFatal => loggerenum.FatalLvl
  | MPanic => loggerenum.PanicLvl
  | MLog level => level
  end.

(** *** Invariants of the queues *)

(** What holds of a queue and its drain goroutine at any time, given the
    records [delivered] that the goroutine has passed to the writer: the
    buffer is within capacity; every completed send is either delivered or
    still pending, in order; a parked receiver is the drain goroutine,
    parked on an empty open queue; and the goroutine exits only on a closed
    and drained queue. *)
Definition pipeInv {A} (p : pipeline A) (delivered : list (tagged A)) : Prop :=
  (gochan.qcount (ch p) ≤ gochan.dataqsiz (ch p))%Z ∧
  enqueued p = (delivered ++ pending p)%list ∧
  (gochan.recvq (ch p) = true →
     drain p = Parked ∧ gochan.closed (ch p) = false) ∧
  (drain p = Parked →
     gochan.qbuf (ch p) = [] ∧
     (gochan.closed (ch p) = false → gochan.recvq (ch p) = true)) ∧
  (drain p = Exited →
     gochan.closed (ch p) = true ∧ gochan.qbuf (ch p) = []).

(** The contribution of a drain goroutine to the WaitGroup counter. *)
Definition live {A} (d : loop A) : Z :=
  match d with Exited => 0 | _ => 1 end.

(** A delivery carries the call that the loop body computes for its
    record. *)
Definition rendered (l : Logrus) (d : delivery) : Prop :=
  match d with
  | MsgDelivery m call => handleMessage l (payload m) = Returns call
  | ErrDelivery e call => handleError l (payload e) = Returns call
  end.

Definition engineInv (l : Logrus) (cap : Z) (s : engine) : Prop :=
  pipeInv (msgs s) (writtenMsgs (written s)) ∧
  pipeInv (errs s) (writtenErrs (written s)) ∧
  gochan.dataqsiz (msgCh s) = cap ∧
  gochan.dataqsiz (errCh s) = cap ∧
  wg s = (live (drain (msgs s)) + live (drain (errs s)))%Z ∧
  (gochan.closed (msgCh s) = true ↔ shutdown s ≠ Running) ∧
  (gochan.closed (errCh s) = true
   ↔ shutdown s = ClosedErrCh ∨ shutdown s = Returned) ∧
  (shutdown s = Returned → wg s = 0) ∧
  Forall (rendered l) (written s) ∧
  (∀ held, drain (msgs s) = Panicked held → crashed s ≠ None) ∧
  (∀ held, drain (errs s) = Panicked held → crashed s ≠ None).

(** The queue a call sends to. *)
Definition targetFull (c : call) (s : engine) : bool :=
  match c with
  | CallMsg _ _ _ _ => gochan.full (msgCh s)
  | CallErr _ _ _ _ => gochan.full (errCh s)
  end.

Definition targetClosed (c : call) (s : engine) : bool :=
  match c with
  | CallMsg _ _ _ _ => gochan.closed (msgCh s)
  | CallErr _ _ _ _ => gochan.closed (errCh s)
  end.

(** The severity name a message-form method stamps on its record. *)
Definition msgMethodLevel (f : msgMethod) : string :=
  match f with
  | MDebugMsg => loggerenum.DebugLvl
  | MInfoMsg => loggerenum.InfoLvl
  | MWarningMsg => loggerenum.WarningLvl
  | MErrorMsg => loggerenum.ErrorLvl
  | MFatalMsg => loggerenum.FatalLvl
  | MPanicMsg => loggerenum.PanicLvl
  | MLogMsg level => level
  end.

(** The message records that the calls of a trace construct, in order. *)
Fixpoint producedMsgs (trace : list action) : list (tagged loggerdto.MsgDto) :=
  match trace with
  | [] => []
  | Produce who caller (CallMsg f ctx msg fields) :: rest =>
      {| sender := who;
         payload := loggerdto.NewMsg caller ctx (msgMethodLevel f) msg fields |}
      :: producedMsgs rest
  | _ :: rest => producedMsgs rest
  end.

(** The error records that the calls of a trace construct, in order. *)
Fixpoint producedErrs (trace : list action) : list (tagged loggerdto.ErrDto) :=
  match trace with
  | [] => []
  | Produce who caller (CallErr f ctx err fields) :: rest =>
      {| sender := who;
         payload := loggerdto.NewErr caller ctx (errMethodLevel f) err fields |}
      :: producedErrs rest
  | _ :: rest => producedErrs rest
  end.

(** A run in which no producer takes part. *)
Definition quiet (trace : list action) : Prop :=
  producedMsgs trace = [] ∧ producedErrs trace = [].

(** ** A sample run *)

(** The end-to-end scenario of the spec: capacity 2, level debug, format
    json; one producer logs three info messages and one error, then the
    shutdown closure runs. *)
Definition demoConfig : loggerconfig.Config :=
  {| loggerconfig.BufferCapacity := 2;
     loggerconfig.Level := "debug";
     loggerconfig.Output := "stdout";
     loggerconfig.Formatter := "json";
     loggerconfig.LogsDir := "var/log";
     loggerconfig.ContextExtraFields := ["request_id"] |}.

(** A 64-bit platform's bound on the element count of a channel. *)
Definition maxElems64 : Z := 2 ^ 44.

Definition demoBuilt : constructed :=
  match NewLogrus maxElems64 demoConfig logrus.OutStdout with
  | Returns c => c
  | _ => {| handle := None;
            started := startEngine (gochan.emptyChan 0) (gochan.emptyChan 0);
            err := None |}
  end.

Definition demoLogger : Logrus :=
  default {| logger := logrus.New; contextExtraFields := [] |}
          (handle demoBuilt).

Definition demoCtx : Context :=
  WithValue Background "request_id" (any_string "r-17").

Definition demoCaller : GoFields :=
  {[ "function" := any_string "main.run";
     "file" := any_string "main.go";
     "line" := any_int 42 ]}.

Definition boom : error :=
  Some {| err_id := 7; err_text := "boom"; err_not_exist := false |}.

Definition infoMsg (text : string) : action :=
  Produce 1%nat demoCaller (CallMsg MInfoMsg demoCtx text ∅).

(** Two messages fill the queue; the drain goroutine takes the first and
    the third message fits. *)
Definition demoFill : list action :=
  [infoMsg "one"; infoMsg "two"].

Definition demoTrace : list action :=
  (demoFill ++
   [DrainMessages; infoMsg "three";
    Produce 1%nat demoCaller (CallErr MError demoCtx boom ∅);
    Cancel; Cancel;
    DrainMessages; DrainMessages; DrainMessages; DrainMessages; DrainMessages;
    DrainMessages;
    DrainErrors; DrainErrors; DrainErrors;
    Cancel])%list.

Definition demoFull : engine :=
  default (started demoBuilt) (run demoLogger demoFill (started demoBuilt)).

Definition demoFinal : engine :=
  default (started demoBuilt) (run demoLogger demoTrace (started demoBuilt)).

(** A record of panic level ahead of another record.  Producer 1 logs a
    panic message and an info message; the closure closes both queues; the
    error loop leaves; the message loop receives the first record, calls
    the writer and dies in the writer's panic. *)
Definition panicMsg (text : string) : action :=
  Produce 1%nat demoCaller (CallMsg MPanicMsg demoCtx text ∅).

Definition panicTrace : list action :=
  [panicMsg "last words"; infoMsg "after";
   Cancel; Cancel; DrainErrors; DrainMessages; DrainMessages].

Definition panicCrash : engine :=
  default (started demoBuilt) (run demoLogger panicTrace (started demoBuilt)).

(** While the process dies, the deferred [wg.Done()] of the message loop
    runs and the closure's [wg.Wait()] returns. *)
Definition panicDying : list dyingAction := [Deferred; Still Cancel].

Definition panicEnd : engine :=
  default panicCrash (runDying demoLogger panicDying panicCrash).

(** The same two calls with the queues left open. *)
Definition stuckTrace : list action :=
  [panicMsg "last words"; infoMsg "after"; DrainMessages; DrainMessages].


(** The default configuration of the config package. *)
Definition defaultConfig : loggerconfig.Config :=
  {| loggerconfig.BufferCapacity := 100;
     loggerconfig.Level := "debug";
     loggerconfig.Output := "stdout";
     loggerconfig.Formatter := "json";
     loggerconfig.LogsDir := "var/log";
     loggerconfig.ContextExtraFields := [] |}.

(** An engine with room for one record in each queue. *)
Definition roomy : engine :=
  startEngine (gochan.emptyChan 1) (gochan.emptyChan 1).

(** The engine after [Error(ctx, boom, nil)] on [roomy]. *)
Definition afterError : engine :=
  match callErrMethod 1%nat ∅ MError roomy Background boom ∅ with
  | Returns (s', _) => s'
  | _ => roomy
  end.

(** An engine with unbuffered queues whose message loop is parked in its
    receive. *)
Definition unbufferedConfig : loggerconfig.Config :=
  {| loggerconfig.BufferCapacity := 0;
     loggerconfig.Level := "info";
     loggerconfig.Output := "stderr";
     loggerconfig.Formatter := "text";
     loggerconfig.LogsDir := "var/log";
     loggerconfig.ContextExtraFields := [] |}.

Definition unbufferedBuilt : constructed :=
  match NewLogrus maxElems64 unbufferedConfig logrus.OutStderr with
  | Returns c => c
  | _ => demoBuilt
  end.

Definition unbufferedLogger : Logrus :=
  default demoLogger (handle unbufferedBuilt).

Definition unbufferedParked : engine :=
  default (started unbufferedBuilt)
          (run unbufferedLogger [DrainMessages] (started unbufferedBuilt)).

(** Whether an action is a logging call. *)
Definition isProduce (a : action) : bool :=
  match a with Produce _ _ _ => true | _ => false end.

(** While only producers have run, nothing has been written, both loops
    still stand before their first receive and both queues are open. *)
Definition untouched (s : engine) : Prop :=
  drain (msgs s) = AtReceive ∧ drain (errs s) = AtReceive ∧
  written s = [] ∧ crashed s = None ∧
  gochan.recvq (msgCh s) = false ∧ gochan.recvq (errCh s) = false ∧
  gochan.closed (msgCh s) = false ∧ gochan.closed (errCh s) = false.

(** ** A simulated operating system *)

(** A small file system to run the resolver on: a working directory, the
    directories and the files that exist. *)
Module simos.
Record world : Type := {
  cwd : string;
  dirs : list string;
  files : list string;
}.

Definition ENOENT : error_value :=
  {| err_id := 2; err_text := "no such file or directory";
     err_not_exist := true |}.

(** A directory and every ancestor of it, up to the root. *)
Fixpoint ancestors (fuel : nat) (path : string) : list string :=
  match fuel with
  | O => [path]
  | S fuel' =>
      if decide (filepath.Dir path = path) then [path]
      else path :: ancestors fuel' (filepath.Dir path)
  end.

Definition getwd (w : world) : (string * error) * world := ((cwd w, None), w).

Definition readDir (name : string) (w : world) : error * world :=
  if bool_decide (name ∈ dirs w) then (None, w) else (Some ENOENT, w).

Definition mkdirAll (path : string) (perm : Z) (w : world) : error * world :=
  (None, {| cwd := cwd w;
            dirs := (ancestors (String.length path) path ++ dirs w)%list;
            files := files w |}).

Definition openFile (name : string) (flag perm : Z) (w : world)
    : (option os.File * error) * world :=
  if bool_decide (name = os.DevNull) || bool_decide (name ∈ files w) then
    ((Some (os.Handle name flag perm), None), w)
  else if Z.testbit flag 6 && bool_decide (filepath.Dir name ∈ dirs w) then
    ((Some (os.Handle name flag perm), None),
     {| cwd := cwd w; dirs := dirs w; files := name :: files w |})
  else ((None, Some ENOENT), w).

#[global] Instance system : os.System world := {
  sys_Getwd := getwd;
  sys_ReadDir := readDir;
  sys_MkdirAll := mkdirAll;
  sys_OpenFile := openFile;
}.

(** A fresh checkout in /srv/app: no log directory yet. *)
Definition fresh : world :=
  {| cwd := "/srv/app"; dirs := ["/"; "/srv"; "/srv/app"]; files := [] |}.
End simos.

(** The three sources of a record's fields, highest precedence first. *)
Definition byPrecedence (l : Logrus) (ctx : Context)
    (callSite explicit : GoFields) (k : string) : option any :=
  match callSite !! k with
  | Some v => Some v
  | None =>
      if bool_decide (k ∈ contextExtraFields l) && negb (is_nil (ctx k))
      then Some (ctx k)
      else explicit !! k
  end.

(** A delivery, read against its record alone: the writer got the record's
    own text (for an error its [Error()] text), at the level its severity
    name maps to, with the fields merged by precedence. *)
Definition faithful (l : Logrus) (d : delivery) : Prop :=
  match d with
  | MsgDelivery m call =>
      logrus.lc_Message call = loggerdto.msg_Msg (payload m) ∧
      logrus.lc_Level call = getLevel (loggerdto.msg_Level (payload m)) ∧
      ∀ k, logrus.lc_Data call !! k
           = byPrecedence l (loggerdto.msg_Ctx (payload m))
               (loggerdto.msg_CallerFields (payload m))
               (loggerdto.msg_Fields (payload m)) k
  | ErrDelivery e call =>
      (∃ v, loggerdto.err_Err (payload e) = Some v ∧
            logrus.lc_Message call = err_text v) ∧
      logrus.lc_Level call = getLevel (loggerdto.err_Level (payload e)) ∧
      ∀ k, logrus.lc_Data call !! k
           = byPrecedence l (loggerdto.err_Ctx (payload e))
               (loggerdto.err_CallerFields (payload e))
               (loggerdto.err_Fields (payload e)) k
  end.

(** A record whose handling makes the loop body panic: a severity name
    that maps to the panic level, or a nil error. *)
Definition msgPanics (m : tagged loggerdto.MsgDto) : Prop :=
  getLevel (loggerdto.msg_Level (payload m)) = logrus.PanicLevel.

Definition errPanics (e : tagged loggerdto.ErrDto) : Prop :=
  loggerdto.err_Err (payload e) = None ∨
  getLevel (loggerdto.err_Level (payload e)) = logrus.PanicLevel.

(** ** The rest of the engine's surface *)

(** The severity names that [getLevel] tells apart from debug. *)
Definition namedLevels : list string :=
  [loggerenum.InfoLvl; loggerenum.WarningLvl; loggerenum.ErrorLvl;
   loggerenum.FatalLvl; loggerenum.PanicLvl].

(** The writer's level for the record of each message-form method. *)
Definition msgMethodSeverity (f : msgMethod) : logrus.Level :=
  match f with
  | MDebugMsg => logrus.DebugLevel
  | MInfoMsg => logrus.InfoLevel
  | MWarningMsg => logrus.WarnLevel
  | MErrorMsg => logrus.ErrorLevel
  | MFatalMsg => logrus.FatalLevel
  | MPanicMsg => logrus.PanicLevel
  | MLogMsg level => getLevel level
  end.

(** The writer's level for the record of each error-form method. *)
Definition errMethodSeverity (f : errMethod) : logrus.Level :=
  match f with
  | MDebug => logrus.DebugLevel
  | MInfo => logrus.InfoLevel
  | MWarning => logrus.WarnLevel
  | MError => logrus.ErrorLevel
  | MFatal => logrus.FatalLevel
  | MPanic => logrus.PanicLevel
  | MLog level => getLevel level
  end.

(** The file branch of [getOutput] on its own: what the function does once
    the name has turned out not to be reserved. *)
Definition getOutputFile {W : Type} `{os.System W} (logsDir : string)
    : os.IO W (option os.File * error) :=
  '(rootDir, err) ← os.Getwd ;
  match err with
  | Some _ => os.ret (None, err)
  | None =>
      let path := logFilePath rootDir logsDir in
      err ← os.ReadDir (filepath.Dir path) ;
      let continue :=
        '(f, err) ← os.OpenFile path
                      (Z.lor (Z.lor os.O_CREATE os.O_APPEND) os.O_RDWR)
                      os.perm_0666 ;
        match err with
        | Some _ => os.ret (None, err)
        | None => os.ret (f, None)
        end in
      match err with
      | None => continue
      | Some _ =>
          if os.IsNotExist err then
            err ← os.MkdirAll (filepath.Dir path) os.perm_0755 ;
            match err with
            | Some _ => os.ret (None, err)
            | None => continue
            end
          else os.ret (None, err)
      end
  end.

(** A system on which chosen calls fail: the simulated file system, with a
    table of the calls that report an error instead of acting. *)
Module flakyos.
Record world : Type := {
  inner : simos.world;
  failing : os.syscall → option error_value;
}.

Definition EACCES : error_value :=
  {| err_id := 13; err_text := "permission denied"; err_not_exist := false |}.

Definition lift {A} (w : world) (r : A * simos.world) : A * world :=
  (r.1, {| inner := r.2; failing := failing w |}).

Definition getwd (w : world) : (string * error) * world :=
  match failing w os.SysGetwd with
  | Some e => (("", Some e), w)
  | None => lift w (simos.getwd (inner w))
  end.

Definition readDir (name : string) (w : world) : error * world :=
  match failing w (os.SysReadDir name) with
  | Some e => (Some e, w)
  | None => lift w (simos.readDir name (inner w))
  end.

Definition mkdirAll (path : string) (perm : Z) (w : world) : error * world :=
  match failing w (os.SysMkdirAll path perm) with
  | Some e => (Some e, w)
  | None => lift w (simos.mkdirAll path perm (inner w))
  end.

Definition openFile (name : string) (flag perm : Z) (w : world)
    : (option os.File * error) * world :=
  match failing w (os.SysOpenFile name flag perm) with
  | Some e => ((None, Some e), w)
  | None => lift w (simos.openFile name flag perm (inner w))
  end.

#[global] Instance system : os.System world := {
  sys_Getwd := getwd;
  sys_ReadDir := readDir;
  sys_MkdirAll := mkdirAll;
  sys_OpenFile := openFile;
}.

(** The fresh checkout, with the calls selected by [bad] denied. *)
Definition denying (bad : os.syscall → bool) : world :=
  {| inner := simos.fresh;
     failing := λ c, if bad c then Some EACCES else None |}.
End flakyos.

(** * Properties *)

(** ** Field merge and context extraction *)

Lemma fieldsFromContext_fold (ctx : Context) (keys : list string)
    (acc : GoFields) (k : string) :
  foldl (λ (fields : GoFields) (field : string),
           let value := ctx field in
           if is_nil value then fields else <[field := value]> fields)
        acc keys !! k
  = if bool_decide (k ∈ keys) && negb (is_nil (ctx k))
    then Some (ctx k) else acc !! k.
Proof.
  revert acc. induction keys as [|key keys IH]; intros acc; cbn [foldl].
  - rewrite bool_decide_eq_false_2; [done | apply not_elem_of_nil].
  - rewrite IH. destruct (decide (k = key)) as [->|Hne].
    + rewrite (bool_decide_eq_true_2 (key ∈ key :: keys)) by apply list_elem_of_here.
      destruct (is_nil (ctx key)); cbn [andb negb].
      * by rewrite andb_false_r.
      * rewrite lookup_insert_eq. by destruct (bool_decide (key ∈ keys)).
    + assert (bool_decide (k ∈ key :: keys) = bool_decide (k ∈ keys)) as ->.
      { apply bool_decide_ext. rewrite elem_of_cons.
        split; [intros [?|?]; [congruence|done] | by right]. }
      destruct (bool_decide (k ∈ keys) && negb (is_nil (ctx k))); [done|].
      destruct (is_nil (ctx key)); [done|]. by rewrite lookup_insert_ne.
Qed.

(** C6.  The map extracted from a context holds, under its own name, every
    configured key for which the context has a non-nil value, and nothing
    else: a key outside the configured list is never copied, and a
    configured key the context lacks gets no entry. *)
Theorem fieldsFromContext_exact (l : Logrus) (ctx : Context) (k : string) :
  fieldsFromContext l ctx !! k
  = if bool_decide (k ∈ contextExtraFields l) && negb (is_nil (ctx k))
    then Some (ctx k) else None.
Proof.
  unfold fieldsFromContext. rewrite fieldsFromContext_fold.
  by rewrite lookup_empty.
Qed.

Lemma merged_lookup (l : Logrus) (ctx : Context)
    (callSite explicit : GoFields) (k : string) :
  (callSite ∪ (fieldsFromContext l ctx ∪ (explicit ∪ ∅))) !! k
  = byPrecedence l ctx callSite explicit k.
Proof.
  unfold byPrecedence, fieldsFromContext.
  rewrite !lookup_union, fieldsFromContext_fold. rewrite !lookup_empty.
  destruct (callSite !! k) as [v|]; simpl.
  - by destruct (bool_decide _ && _), (explicit !! k).
  - destruct (bool_decide _ && _); simpl.
    + by destruct (explicit !! k).
    + by destruct (explicit !! k).
Qed.

(** C3.  The field map a drain loop hands to the writer is, key by key, the
    call-site value if the call site has the key, else the context value if
    the key is configured and the context holds it, else the caller's
    explicit value; this holds for message records and for error records
    (where the loop reaches the writer only if the error is not nil). *)
Theorem merged_fields_precedence (l : Logrus) :
  (∀ m : loggerdto.MsgDto,
     ∃ call, handleMessage l m = Returns call ∧
       ∀ k, logrus.lc_Data call !! k
            = byPrecedence l (loggerdto.msg_Ctx m)
                (loggerdto.msg_CallerFields m) (loggerdto.msg_Fields m) k) ∧
  (∀ e : loggerdto.ErrDto,
     match handleError l e with
     | Returns call =>
         ∀ k, logrus.lc_Data call !! k
              = byPrecedence l (loggerdto.err_Ctx e)
                  (loggerdto.err_CallerFields e) (loggerdto.err_Fields e) k
     | Panics _ => loggerdto.err_Err e = None
     | Blocks => False
     end).
Proof.
  split.
  - intros m. eexists. split; [reflexivity|]. intros k. simpl.
    apply merged_lookup.
  - intros e. unfold handleError. destruct (loggerdto.err_Err e); simpl.
    + intros k. apply merged_lookup.
    + done.
Qed.

(** The precedence test of the spec: an explicit field, a context value and
    a call-site field all named x; the call-site value reaches the writer. *)
Example precedence_collision :
  let l := {| logger := logrus.New; contextExtraFields := ["x"] |} in
  let m := loggerdto.NewMsg {[ "x" := any_string "c" ]}
             (WithValue Background "x" (any_string "b"))
             loggerenum.InfoLvl "hello" {[ "x" := any_string "a" ]} in
  logrus.Data (msgEntry l m) !! "x" = Some (any_string "c").
Proof. vm_compute. reflexivity. Qed.

(** ** The output resolver *)

Section ResolverProperties.
Context {W : Type} `{os.System W}.

(** C9.  The reserved names: [stdout] and [stderr] give the process
    streams with a nil error and without any system call; [/dev/null] and
    the empty name give whatever opening the null device write-only
    gives, and that open is the only system call, so no directory is
    created. *)
Theorem getOutput_reserved (logsDir : string) (w : W)
    (calls : list os.syscall) :
  getOutput "stdout" logsDir (w, calls)
    = ((Some os.Stdout, None), (w, calls)) ∧
  getOutput "stderr" logsDir (w, calls)
    = ((Some os.Stderr, None), (w, calls)) ∧
  getOutput "/dev/null" logsDir (w, calls)
    = (let '(r, w') := os.sys_OpenFile "/dev/null" os.O_WRONLY os.perm_0644 w in
       (r, (w', calls ++ [os.SysOpenFile "/dev/null" os.O_WRONLY os.perm_0644])%list)) ∧
  getOutput "" logsDir (w, calls)
    = (let '(r, w') := os.sys_OpenFile "/dev/null" os.O_WRONLY os.perm_0644 w in
       (r, (w', calls ++ [os.SysOpenFile "/dev/null" os.O_WRONLY os.perm_0644])%list)).
Proof. repeat split. Qed.
End ResolverProperties.

(** On the simulated system the null device opens, and nothing else
    changes. *)
Example getOutput_discard :
  getOutput "/dev/null" "var/log" (simos.fresh, [])
  = ((Some (os.Handle "/dev/null" os.O_WRONLY os.perm_0644), None),
     (simos.fresh, [os.SysOpenFile "/dev/null" os.O_WRONLY os.perm_0644])).
Proof. reflexivity. Qed.

(** The only strings contained in the one-character string [.] are the
    empty string and [.] itself. *)
Lemma Contains_dot (path : string) :
  gostrings.Contains "." path = true ↔ path = "" ∨ path = ".".
Proof.
  split.
  - destruct path as [|c [|d rest]]; [by left| |].
    + simpl. destruct (decide (c = "."%char)) as [->|]; [by right|done].
    + simpl. by destruct (decide (c = "."%char)).
  - by intros [-> | ->].
Qed.

Lemma Clean_rooted (path : string) :
  filepath.rooted path = true →
  ∃ rest, filepath.Clean path = String "/" rest.
Proof.
  intros Hr. unfold filepath.Clean.
  destruct (decide (path = "")) as [->|_]; [done|].
  destruct (foldl _ _ _) as [dotdot out]. rewrite Hr. by eexists.
Qed.

Lemma rooted_app (a b : string) :
  filepath.rooted a = true → filepath.rooted (a ++ b) = true.
Proof. by destruct a. Qed.

Lemma Join_rooted (rootDir : string) (rest : list string) :
  filepath.rooted rootDir = true →
  ∃ tail, filepath.Join (rootDir :: rest) = String "/" tail.
Proof.
  intros Hr. cbn [filepath.Join].
  destruct (decide (rootDir = "")) as [->|_]; [done|].
  apply Clean_rooted. destruct rest; [done|]. by apply rooted_app.
Qed.

(** Whatever the logs directory looks like, the test of [getOutput] on the
    resolved path succeeds and the default file name is joined to it. *)
Lemma logFilePath_always_appends (rootDir logsDir : string) :
  filepath.rooted rootDir = true →
  logFilePath rootDir logsDir
  = filepath.Join [filepath.Join [rootDir; logsDir]; "app.log"].
Proof.
  intros Hr. unfold logFilePath.
  destruct (Join_rooted rootDir [logsDir] Hr) as [tail ->].
  destruct (gostrings.Contains "." (String "/" tail)) eqn:Hc; [|done].
  apply Contains_dot in Hc as [|]; discriminate.
Qed.

(** C7.  A logs directory that already names a file: the resolved path
    /srv/app/var/log/custom.log has a file component, yet the default file
    name is joined to it, a directory of that name is created and the file
    opened is app.log inside it. *)
Theorem getOutput_appends_to_file_path :
  getOutput "file" "var/log/custom.log" (simos.fresh, [])
  = ((Some (os.Handle "/srv/app/var/log/custom.log/app.log"
              (Z.lor (Z.lor os.O_CREATE os.O_APPEND) os.O_RDWR) os.perm_0666),
      None),
     ({| simos.cwd := "/srv/app";
         simos.dirs := ["/srv/app/var/log/custom.log"; "/srv/app/var/log";
                        "/srv/app/var"; "/srv/app"; "/srv"; "/";
                        "/"; "/srv"; "/srv/app"];
         simos.files := ["/srv/app/var/log/custom.log/app.log"] |},
      [os.SysGetwd;
       os.SysReadDir "/srv/app/var/log/custom.log";
       os.SysMkdirAll "/srv/app/var/log/custom.log" os.perm_0755;
       os.SysOpenFile "/srv/app/var/log/custom.log/app.log"
         (Z.lor (Z.lor os.O_CREATE os.O_APPEND) os.O_RDWR) os.perm_0666])).
Proof. vm_compute. reflexivity. Qed.

(** Membership in an explicit list of system calls. *)
Ltac in_calls :=
  repeat first [apply list_elem_of_here | apply list_elem_of_further].

Ltac not_in_calls Hin :=
  repeat (apply elem_of_cons in Hin as [Hin|Hin]; [discriminate Hin|]);
  by apply elem_of_nil in Hin.

Ltac calls_subset :=
  let c := fresh "c" in
  let Hin := fresh "Hin" in
  intros c Hin;
  repeat (apply elem_of_cons in Hin as [->|Hin]; [in_calls|]);
  by apply elem_of_nil in Hin.

(** The facts about one branch of the resolver, once its calls are known. *)
Ltac calls_facts :=
  cbn [app];
  repeat match goal with
         | |- _ ∧ _ => split
         | |- _ ↔ _ => split
         end;
  first [ assumption
        | done
        | eexists; reflexivity
        | by intros [? ?]
        | intros; in_calls; done
        | calls_subset
        | let Hin := fresh "Hin" in intros Hin; not_in_calls Hin ].

(** The facts about the replies of the calls: the equations of the branch
    decide them. *)
Ltac reply_facts :=
  cbn [app];
  repeat match goal with
         | |- _ ∧ _ => split
         end;
  first [ by (intros; simplify_eq;
              repeat match goal with
                     | H1 : ?t = _, H2 : ?t = _ |- _ => rewrite H1 in H2
                     end;
              simplify_eq;
              repeat match goal with
                     | Hopen : os.sys_OpenFile _ _ _ _ = _ |- _ => rewrite Hopen
                     end;
              split_and?;
              first [done | let Hin := fresh "Hin" in intros Hin; not_in_calls Hin])
        | calls_facts ].

Section FileOutput.
Context {W : Type} `{os.System W}.

(** C8 (amended).  For a name that is not reserved, the resolver works on
    the logs directory, not on the name: with the working directory
    [rootDir], the file path lies under [rootDir]/[logsDir]; the calls
    start with reading the file's directory; that directory is created,
    ancestors included, exactly when reading it reported that it does not
    exist; nothing else is touched.  The result is the reply of the last
    call: when the directory could be read, or did not exist and could be
    created, the resolver opens the file with create, append and
    read-write and returns what the open returned, the file without error
    or the open's error without file; when reading the directory failed
    otherwise, or creating it failed, it returns that error and no file,
    and opens nothing. *)
Theorem getOutput_opens_under_logs_dir
    (output logsDir rootDir : string) (w w1 : W) :
  output ≠ "stdout" → output ≠ "stderr" → output ≠ "/dev/null" →
  output ≠ "" →
  os.sys_Getwd w = ((rootDir, None), w1) →
  let path := logFilePath rootDir logsDir in
  let dir := filepath.Dir path in
  let flags := Z.lor (Z.lor os.O_CREATE os.O_APPEND) os.O_RDWR in
  let '((f, e), (w', calls)) := getOutput output logsDir (w, []) in
  (path = filepath.Join [rootDir; logsDir] ∨
   path = filepath.Join [filepath.Join [rootDir; logsDir]; "app.log"]) ∧
  [os.SysGetwd; os.SysReadDir dir] `prefix_of` calls ∧
  (os.SysMkdirAll dir os.perm_0755 ∈ calls
   ↔ os.IsNotExist (os.sys_ReadDir dir w1).1 = true) ∧
  (∀ c, c ∈ calls →
     c ∈ [os.SysGetwd; os.SysReadDir dir; os.SysMkdirAll dir os.perm_0755;
          os.SysOpenFile path flags os.perm_0666]) ∧
  (is_Some f → e = None) ∧
  (e = None → last calls = Some (os.SysOpenFile path flags os.perm_0666)) ∧
  (∀ w2, os.sys_ReadDir dir w1 = (None, w2) →
     let '((f3, e3), w4) := os.sys_OpenFile path flags os.perm_0666 w2 in
     w' = w4 ∧ e = e3 ∧ f = match e3 with None => f3 | Some _ => None end) ∧
  (∀ e1 w2 w3, os.sys_ReadDir dir w1 = (Some e1, w2) →
     err_not_exist e1 = true →
     os.sys_MkdirAll dir os.perm_0755 w2 = (None, w3) →
     let '((f3, e3), w4) := os.sys_OpenFile path flags os.perm_0666 w3 in
     w' = w4 ∧ e = e3 ∧ f = match e3 with None => f3 | Some _ => None end) ∧
  (∀ e1 w2 e2 w3, os.sys_ReadDir dir w1 = (Some e1, w2) →
     err_not_exist e1 = true →
     os.sys_MkdirAll dir os.perm_0755 w2 = (Some e2, w3) →
     w' = w3 ∧ e = Some e2 ∧ f = None ∧
     os.SysOpenFile path flags os.perm_0666 ∉ calls) ∧
  (∀ e1 w2, os.sys_ReadDir dir w1 = (Some e1, w2) →
     err_not_exist e1 = false →
     w' = w2 ∧ e = Some e1 ∧ f = None ∧
     os.SysOpenFile path flags os.perm_0666 ∉ calls).
Proof.
  intros Hout Herr Hnull Hempty Hwd path dir flags.
  unfold getOutput.
  rewrite (decide_False (P := output = loggerenum.Stdout)) by done.
  rewrite (decide_False (P := output = loggerenum.Stderr)) by done.
  rewrite (bool_decide_eq_false_2 (output = loggerenum.DevNull)) by done.
  rewrite (bool_decide_eq_false_2 (output = "")) by done.
  cbv [orb mbind os.IO_bind os.bind os.Getwd os.ReadDir os.MkdirAll
       os.OpenFile os.issue os.ret].
  rewrite Hwd. fold path. fold dir. fold flags.
  assert (path = filepath.Join [rootDir; logsDir] ∨
          path = filepath.Join [filepath.Join [rootDir; logsDir]; "app.log"])
    as Hpath.
  { unfold path, logFilePath. destruct (negb _); auto. }
  destruct (os.sys_ReadDir dir w1) as [[e1|] w2] eqn:Hrd; cbn [fst].
  - cbn [os.IsNotExist]. destruct (err_not_exist e1) eqn:Hne.
    + destruct (os.sys_MkdirAll dir os.perm_0755 w2) as [[e2|] w3] eqn:Hmk.
      * reply_facts.
      * destruct (os.sys_OpenFile path flags os.perm_0666 w3)
          as [[f3 [e3|]] w4] eqn:Hopen; reply_facts.
    + reply_facts.
  - destruct (os.sys_OpenFile path flags os.perm_0666 w2)
      as [[f3 [e3|]] w4] eqn:Hopen; reply_facts.
Qed.
End FileOutput.

(** The amended C8 on the simulated system: the name logs/out, the logs
    directory var/log, a checkout without log directory. *)
Lemma getOutput_opens_under_logs_dir_witness :
  let path := logFilePath "/srv/app" "var/log" in
  let dir := filepath.Dir path in
  let flags := Z.lor (Z.lor os.O_CREATE os.O_APPEND) os.O_RDWR in
  let '((f, e), (w', calls)) :=
    getOutput "logs/out" "var/log" (simos.fresh, []) in
  (path = filepath.Join ["/srv/app"; "var/log"] ∨
   path = filepath.Join [filepath.Join ["/srv/app"; "var/log"]; "app.log"]) ∧
  [os.SysGetwd; os.SysReadDir dir] `prefix_of` calls ∧
  (os.SysMkdirAll dir os.perm_0755 ∈ calls
   ↔ os.IsNotExist (os.sys_ReadDir dir simos.fresh).1 = true) ∧
  (∀ c, c ∈ calls →
     c ∈ [os.SysGetwd; os.SysReadDir dir; os.SysMkdirAll dir os.perm_0755;
          os.SysOpenFile path flags os.perm_0666]) ∧
  (is_Some f → e = None) ∧
  (e = None → last calls = Some (os.SysOpenFile path flags os.perm_0666)) ∧
  (∀ w2, os.sys_ReadDir dir simos.fresh = (None, w2) →
     let '((f3, e3), w4) := os.sys_OpenFile path flags os.perm_0666 w2 in
     w' = w4 ∧ e = e3 ∧ f = match e3 with None => f3 | Some _ => None end) ∧
  (∀ e1 w2 w3, os.sys_ReadDir dir simos.fresh = (Some e1, w2) →
     err_not_exist e1 = true →
     os.sys_MkdirAll dir os.perm_0755 w2 = (None, w3) →
     let '((f3, e3), w4) := os.sys_OpenFile path flags os.perm_0666 w3 in
     w' = w4 ∧ e = e3 ∧ f = match e3 with None => f3 | Some _ => None end) ∧
  (∀ e1 w2 e2 w3, os.sys_ReadDir dir simos.fresh = (Some e1, w2) →
     err_not_exist e1 = true →
     os.sys_MkdirAll dir os.perm_0755 w2 = (Some e2, w3) →
     w' = w3 ∧ e = Some e2 ∧ f = None ∧
     os.SysOpenFile path flags os.perm_0666 ∉ calls) ∧
  (∀ e1 w2, os.sys_ReadDir dir simos.fresh = (Some e1, w2) →
     err_not_exist e1 = false →
     w' = w2 ∧ e = Some e1 ∧ f = None ∧
     os.SysOpenFile path flags os.perm_0666 ∉ calls).
Proof.
  apply (getOutput_opens_under_logs_dir
           "logs/out" "var/log" "/srv/app" simos.fresh simos.fresh);
    first [discriminate | reflexivity].
Defined.

(** C8 as stated fails: for the name logs/out with the logs directory
    var/log, the directory /srv/app/logs/out is neither read nor created
    and no file is opened below it; everything happens in
    /srv/app/var/log. *)
Lemma getOutput_ignores_output_name :
  let '((f, e), (w', calls)) := getOutput "logs/out" "var/log" (simos.fresh, []) in
  (filepath.Join ["/srv/app"; "logs/out"] = "/srv/app/logs/out") ∧
  ("/srv/app/logs/out" ∉ simos.dirs w') ∧
  calls = [os.SysGetwd;
           os.SysReadDir "/srv/app/var/log";
           os.SysMkdirAll "/srv/app/var/log" os.perm_0755;
           os.SysOpenFile "/srv/app/var/log/app.log"
             (Z.lor (Z.lor os.O_CREATE os.O_APPEND) os.O_RDWR) os.perm_0666] ∧
  f = Some (os.Handle "/srv/app/var/log/app.log"
              (Z.lor (Z.lor os.O_CREATE os.O_APPEND) os.O_RDWR) os.perm_0666).
Proof.
  vm_compute. repeat split.
  intros Hin. repeat (apply elem_of_cons in Hin as [Hin|Hin]; [discriminate Hin|]).
  by apply elem_of_nil in Hin.
Qed.

(** ** The producer methods *)

Lemma enqueue_returns {A} (who : producer) (x : A) (p p' : pipeline A) :
  enqueue who x p = Returns p' →
  enqueued p' = (enqueued p ++ [{| sender := who; payload := x |}])%list.
Proof.
  unfold enqueue. destruct (gochan.chansend _ _) as [[c handed]| |]; [|done..].
  by intros [= <-].
Qed.

(** C4 (amended).  A call of an error-form method that returns has
    enqueued one record carrying the error it was given; the six
    fixed-severity methods return exactly that error, and [Log] returns no
    value. *)
Theorem error_forms_return_their_error (who : producer) (caller : GoFields)
    (f : errMethod) (s s' : engine) (ctx : Context) (err : error)
    (fields : GoFields) (results : list error) :
  callErrMethod who caller f s ctx err fields = Returns (s', results) →
  results = match f with MLog _ => [] | _ => [err] end ∧
  enqueued (errs s')
  = (enqueued (errs s)
     ++ [{| sender := who;
            payload := loggerdto.NewErr caller ctx (errMethodLevel f) err fields |}])%list.
Proof.
  destruct f; cbn [callErrMethod errMethodLevel];
    unfold Debug, Info, Warning, Error, Fatal, Panic, Log, thenReturn, sendErr;
    (destruct (enqueue who _ (errs s)) as [p| |] eqn:Hsend;
     cbn [oneResult noResult]; [|done..]);
    intros [= <- <-]; (split; [done|]);
    apply (enqueue_returns _ _ _ _ Hsend).
Qed.

Lemma error_forms_return_their_error_witness :
  callErrMethod 1%nat ∅ MError roomy Background boom ∅
    = Returns (afterError, [boom]) ∧
  [boom] = [boom] ∧
  enqueued (errs afterError)
  = (enqueued (errs roomy)
     ++ [{| sender := 1%nat;
            payload := loggerdto.NewErr ∅ Background
                         (errMethodLevel MError) boom ∅ |}])%list.
Proof.
  split; [reflexivity|].
  apply (error_forms_return_their_error 1%nat ∅ MError roomy afterError
           Background boom ∅ [boom]).
  reflexivity.
Defined.

(** C4 as stated fails for the generic method: [Log] enqueues the error and
    returns nothing, so its result is not the error passed in. *)
Lemma Log_returns_nothing :
  ∃ s', callErrMethod 1%nat ∅ (MLog "error") roomy Background boom ∅
        = Returns (s', []) ∧
        ([] : list error) ≠ [boom].
Proof. eexists. split; [reflexivity | discriminate]. Qed.

(** ** Construction *)

(** C10 (amended).  When the configured buffer capacity is a size the
    runtime can allocate, [NewLogrus] returns a non-nil handle and a nil
    error; and whenever it returns at all, the handle is non-nil and the
    error is nil. *)
Theorem NewLogrus_returns_engine (maxElems : Z) (cfg : loggerconfig.Config)
    (output : logrus.Output) :
  (0 ≤ loggerconfig.BufferCapacity cfg ≤ maxElems)%Z →
  (∃ c l, NewLogrus maxElems cfg output = Returns c ∧
          handle c = Some l ∧ err c = None) ∧
  (∀ maxElems' cfg' output' c',
     NewLogrus maxElems' cfg' output' = Returns c' →
     is_Some (handle c') ∧ err c' = None).
Proof.
  intros Hcap. split.
  - unfold NewLogrus, gochan.makechan, loggerconfig.GetBufferCapacity.
    rewrite bool_decide_eq_false_2 by lia.
    rewrite bool_decide_eq_false_2 by lia.
    cbn [orb]. by eexists _, _.
  - intros maxElems' cfg' output' c'. unfold NewLogrus.
    destruct (gochan.makechan _ _) as [msgCh| |]; [|done..].
    destruct (gochan.makechan _ _) as [errCh| |]; [|done..].
    intros [= <-]. by split; [eexists|].
Qed.

Lemma NewLogrus_returns_engine_witness :
  ∃ c l, NewLogrus maxElems64 defaultConfig logrus.OutStdout = Returns c ∧
         handle c = Some l ∧ err c = None.
Proof.
  apply (NewLogrus_returns_engine maxElems64 defaultConfig logrus.OutStdout).
  vm_compute. split; discriminate.
Defined.

(** C10 as stated fails: with a negative buffer capacity the allocation of
    the message queue panics, and [NewLogrus] returns nothing. *)
Lemma NewLogrus_negative_capacity_panics :
  let cfg := {| loggerconfig.BufferCapacity := -1;
                loggerconfig.Level := "debug";
                loggerconfig.Output := "stdout";
                loggerconfig.Formatter := "json";
                loggerconfig.LogsDir := "var/log";
                loggerconfig.ContextExtraFields := [] |} in
  NewLogrus maxElems64 cfg logrus.OutStdout
    = Panics "makechan: size out of range" ∧
  ¬ ∃ c, NewLogrus maxElems64 cfg logrus.OutStdout = Returns c.
Proof. split; [reflexivity | by intros [c Hc]]. Qed.

(** ** The queues *)

(** Closes the side conditions of the queue invariant: bounds on the buffer
    length, and implications refuted or supplied by the invariant of the
    state before. *)
Ltac pipe_done :=
  try done;
  try (unfold gochan.qcount in *; cbn in *;
       try match goal with
           | Hb : gochan.qbuf _ = _ |- _ => rewrite Hb in *
           end;
       rewrite ?length_app in *; cbn in *; lia);
  try (let H := fresh "H" in
       intros H;
       repeat match goal with
              | Hi : ?P → _, Hp : ?P |- _ => specialize (Hi Hp)
              | Hi : ?x = ?x → _ |- _ => specialize (Hi eq_refl)
              | Hc : _ ∧ _ |- _ => destruct Hc
              end;
       first [done | congruence | split_and!; first [done | congruence]]).

Section PipelineFacts.
Context {A : Type}.
Implicit Types (p : pipeline A) (d : list (tagged A)).

Lemma pipeInv_enqueue who (x : A) p p' d :
  pipeInv p d → enqueue who x p = Returns p' →
  pipeInv p' d ∧
  gochan.dataqsiz (ch p') = gochan.dataqsiz (ch p) ∧
  gochan.closed (ch p') = gochan.closed (ch p) ∧
  live (drain p') = live (drain p).
Proof.
  intros (Hcap & Henq & Hrq & Hpark & Hexit).
  unfold enqueue, gochan.chansend.
  destruct (gochan.closed (ch p)) eqn:Hcl; [done|].
  destruct (gochan.recvq (ch p)) eqn:Hq.
  - intros [= <-]. destruct (Hrq eq_refl) as [Hp _].
    destruct (Hpark Hp) as [Hbuf _].
    unfold pipeInv, pending, gochan.qcount in *. rewrite Hp in *. cbn in *.
    rewrite Hbuf in *. rewrite Henq, !app_nil_r.
    split_and!; pipe_done.
  - destruct (bool_decide _) eqn:Hroom; [|done].
    apply bool_decide_eq_true_1 in Hroom.
    intros [= <-]. unfold pipeInv, pending in *. cbn in *.
    rewrite ?Hcl, ?Hq. split_and!; pipe_done.
    rewrite Henq. by rewrite !app_assoc.
Qed.

Lemma pipeInv_drainStep (h : A → outcome logrus.LogCall) p p' ev d :
  pipeInv p d → drainStep h p = Returns (p', ev) →
  pipeInv p' (match ev with Logged x _ => d ++ [x] | _ => d end)%list ∧
  gochan.dataqsiz (ch p') = gochan.dataqsiz (ch p) ∧
  gochan.closed (ch p') = gochan.closed (ch p) ∧
  enqueued p' = enqueued p ∧
  live (drain p') = (live (drain p) - match ev with Done => 1 | _ => 0 end)%Z ∧
  match ev with
  | Logged x call => h (payload x) = Returns call
  | _ => True
  end.
Proof.
  intros (Hcap & Henq & Hrq & Hpark & Hexit).
  unfold drainStep. destruct (drain p) as [| |x| |held] eqn:Hd.
  - unfold gochan.chanrecv.
    destruct (gochan.qbuf (ch p)) as [|y rest] eqn:Hbuf.
    + destruct (gochan.closed (ch p)) eqn:Hcl; intros [= <- <-];
        unfold pipeInv, pending in *; cbn; rewrite ?Hd, ?Hbuf, ?Hcl in *;
        cbn in *; split_and!; pipe_done.
    + intros [= <- <-]. unfold pipeInv, pending in *; cbn.
      rewrite Hd, Hbuf in *. cbn in *. split_and!; pipe_done.
  - destruct (gochan.closed (ch p)) eqn:Hcl; [|done].
    intros [= <- <-]. destruct (Hpark eq_refl) as [Hbuf _].
    unfold pipeInv, pending in *; cbn. rewrite Hd, Hbuf in *. cbn in *.
    split_and!; pipe_done.
  - destruct (h (payload x)) as [call| |] eqn:Hh; [|done..].
    intros [= <- <-]. unfold pipeInv, pending in *; cbn.
    rewrite Hd in *. cbn in *. split_and!; pipe_done.
    by rewrite Henq, <- app_assoc.
  - done.
  - done.
Qed.

Lemma pipeInv_close p c d :
  pipeInv p d → gochan.closechan (ch p) = Returns c →
  pipeInv (setCh p c) d ∧
  gochan.dataqsiz c = gochan.dataqsiz (ch p) ∧
  gochan.closed c = true ∧
  gochan.closed (ch p) = false.
Proof.
  intros (Hcap & Henq & Hrq & Hpark & Hexit).
  unfold gochan.closechan. destruct (gochan.closed (ch p)) eqn:Hcl; [done|].
  intros [= <-]. unfold pipeInv, pending, setCh in *; cbn.
  split_and!; pipe_done.
Qed.

(** A send on an open queue blocks exactly when the queue is full. *)
Lemma enqueue_blocks_iff_full who (x : A) p d :
  pipeInv p d → gochan.closed (ch p) = false →
  enqueue who x p = Blocks ↔ gochan.full (ch p) = true.
Proof.
  intros (Hcap & Henq & Hrq & Hpark & Hexit) Hcl.
  unfold enqueue, gochan.chansend, gochan.full. rewrite Hcl.
  destruct (gochan.recvq (ch p)) eqn:Hq.
  - destruct (Hrq eq_refl) as [Hp _]. destruct (Hpark Hp) as [Hbuf _].
    unfold gochan.qcount. rewrite Hbuf. cbn.
    destruct (decide (gochan.dataqsiz (ch p) = 0)) as [|Hne]; [done|].
    split; [done|]. intros Hfull%bool_decide_eq_true_1. by destruct Hne.
  - destruct (bool_decide (gochan.qcount (ch p) < gochan.dataqsiz (ch p))%Z)
      eqn:Hroom.
    + apply bool_decide_eq_true_1 in Hroom. split; [done|].
      destruct (decide (gochan.dataqsiz (ch p) = 0)) as [Hz|Hne].
      * unfold gochan.qcount in *. lia.
      * intros Hfull%bool_decide_eq_true_1. lia.
    + apply bool_decide_eq_false_1 in Hroom. split; [|done]. intros _.
      destruct (decide (gochan.dataqsiz (ch p) = 0)) as [Hz|Hne]; [done|].
      apply bool_decide_eq_true_2. lia.
Qed.

(** A send on a closed queue panics: nothing is enqueued after the
    shutdown signal. *)
Lemma enqueue_closed_panics who (x : A) p :
  gochan.closed (ch p) = true →
  enqueue who x p = Panics "send on closed channel".
Proof. intros Hcl. unfold enqueue, gochan.chansend. by rewrite Hcl. Qed.

(** The receive of the drain goroutine on a full open queue frees it. *)
Lemma drainStep_frees (h : A → outcome logrus.LogCall) p d :
  pipeInv p d → gochan.closed (ch p) = false →
  gochan.full (ch p) = true → drain p = AtReceive →
  ∃ p' ev, drainStep h p = Returns (p', ev) ∧ gochan.full (ch p') = false.
Proof.
  intros (Hcap & Henq & Hrq & Hpark & Hexit) Hcl Hfull Hd.
  unfold drainStep, gochan.chanrecv. rewrite Hd.
  unfold gochan.full, gochan.qcount in *.
  destruct (gochan.qbuf (ch p)) as [|y rest] eqn:Hbuf.
  - rewrite Hcl. eexists _, _. split; [done|]. cbn.
    destruct (decide (gochan.dataqsiz (ch p) = 0)) as [|Hne]; [done|].
    cbn in Hfull. apply bool_decide_eq_true_1 in Hfull. by destruct Hne.
  - eexists _, _. split; [done|]. cbn in *.
    destruct (decide (gochan.dataqsiz (ch p) = 0)) as [Hz|Hne]; [lia|].
    apply bool_decide_eq_true_1 in Hfull.
    apply bool_decide_eq_false_2. lia.
Qed.
Lemma enqueue_panicked who (x : A) p p' held :
  enqueue who x p = Returns p' → drain p' = Panicked held →
  drain p = Panicked held.
Proof.
  unfold enqueue. destruct (gochan.chansend _ _) as [[c [y|]]| |]; [|  |done..].
  - by intros [= <-].
  - by intros [= <-].
Qed.

(** A step that returns leaves the loop inside its body or past it. *)
Lemma drainStep_panicked (h : A → outcome logrus.LogCall) p p' ev held :
  drainStep h p = Returns (p', ev) → drain p' ≠ Panicked held.
Proof.
  unfold drainStep, gochan.chanrecv.
  destruct (drain p) as [| |x| |held']; try done.
  - by destruct (gochan.qbuf (ch p)), (gochan.closed (ch p)); intros [= <- <-].
  - by destruct (gochan.closed (ch p)); [intros [= <- <-]|].
  - by destruct (h (payload x)); [intros [= <- <-]| |].
Qed.

(** The loop body panics only with a record in hand. *)
Lemma drainStep_panics (h : A → outcome logrus.LogCall) p reason :
  drainStep h p = Panics reason →
  ∃ x, drain p = Handling x ∧ h (payload x) = Panics reason.
Proof.
  unfold drainStep, gochan.chanrecv.
  destruct (drain p) as [| |x| |held]; try done.
  - by destruct (gochan.qbuf (ch p)), (gochan.closed (ch p)).
  - by destruct (gochan.closed (ch p)).
  - destruct (h (payload x)) eqn:Hh; [done| |done]. intros [= <-]. by exists x.
Qed.

Lemma drainStep_logged (h : A → outcome logrus.LogCall) p p' x call :
  drainStep h p = Returns (p', Logged x call) →
  drain p = Handling x ∧ p' = setDrain p AtReceive ∧ h (payload x) = Returns call.
Proof.
  unfold drainStep, gochan.chanrecv.
  destruct (drain p) as [| |y| |held]; try done.
  - by destruct (gochan.qbuf (ch p)), (gochan.closed (ch p)).
  - by destruct (gochan.closed (ch p)).
  - destruct (h (payload y)) eqn:Hh; [|done..]. by intros [= <- <- <-].
Qed.

(** A loop that panics keeps what it had in hand, and the queue. *)
Lemma pipeInv_panicked p d :
  pipeInv p d →
  match drain p with AtReceive | Handling _ => True | _ => False end →
  pipeInv (setDrain p (Panicked (heldBy (drain p)))) d.
Proof.
  intros (Hcap & Henq & Hrq & Hpark & Hexit) Hd.
  unfold pipeInv, pending, setDrain in *; cbn.
  destruct (drain p) as [| |x| |held]; try done; cbn in *.
  - split_and!; try done. intros Hq. by destruct (Hrq Hq).
  - split_and!; try done. intros Hq. by destruct (Hrq Hq).
Qed.
End PipelineFacts.

(** ** The engine *)

Lemma writtenMsgs_app (log1 log2 : list delivery) :
  writtenMsgs (log1 ++ log2) = (writtenMsgs log1 ++ writtenMsgs log2)%list.
Proof.
  induction log1 as [|[m call|e call] log1 IH]; cbn; [done| |done].
  by rewrite IH.
Qed.

Lemma writtenErrs_app (log1 log2 : list delivery) :
  writtenErrs (log1 ++ log2) = (writtenErrs log1 ++ writtenErrs log2)%list.
Proof.
  induction log1 as [|[m call|e call] log1 IH]; cbn; [done|done|].
  by rewrite IH.
Qed.

Lemma live_bounds {A} (d : loop A) : (0 ≤ live d ≤ 1)%Z.
Proof. destruct d; cbn; lia. Qed.

(** Every logging method is one send of the record it constructs. *)
Lemma produce_send (who : producer) (caller : GoFields) (c : call) (s : engine) :
  produce who caller c s
  = match c with
    | CallMsg f ctx msg fields =>
        sendMsg who (loggerdto.NewMsg caller ctx (msgMethodLevel f) msg fields) s
    | CallErr f ctx err fields =>
        sendErr who (loggerdto.NewErr caller ctx (errMethodLevel f) err fields) s
    end.
Proof.
  destruct c as [f ctx msg fields|f ctx err fields]; destruct f; cbn; try done;
    unfold Debug, Info, Warning, Error, Fatal, Panic, Log, thenReturn;
    by destruct (sendErr _ _ _).
Qed.

Lemma engineInv_start (l : Logrus) (cap : Z) :
  (0 ≤ cap)%Z →
  engineInv l cap (startEngine (gochan.emptyChan cap) (gochan.emptyChan cap)).
Proof.
  intros Hcap. unfold engineInv, pipeInv, startEngine, pending; cbn.
  split_and!; try done; try (split; [done|]); try (intros [|]; done).
  all: try by intros [? ?].
Qed.

Lemma engineInv_crash (l : Logrus) (cap : Z) (s : engine) (reason : string) :
  engineInv l cap s → engineInv l cap (crash s reason).
Proof.
  intros (Hm & He & Hcm & Hce & Hwg & Hclm & Hcle & Hret & Hlog & _ & _).
  unfold engineInv. by split_and!.
Qed.

Lemma engineInv_step (l : Logrus) (cap : Z) (a : action) (s s' : engine) :
  engineInv l cap s → step l a s = Returns s' → engineInv l cap s'.
Proof.
  intros (Hm & He & Hcm & Hce & Hwg & Hclm & Hcle & Hret & Hlog & Hpm & Hpe).
  destruct a as [who caller c| | |]; cbn [step].
  - rewrite produce_send. destruct c as [f ctx msg fields|f ctx err fields].
    + unfold sendMsg. destruct (enqueue _ _ _) as [p| |] eqn:Hsend; [|done..].
      intros [= <-].
      destruct (pipeInv_enqueue _ _ _ _ _ Hm Hsend) as (Hm' & Hq & Hcl & Hlive).
      unfold engineInv, msgCh, errCh in *; cbn.
      rewrite Hq, Hcl, Hlive. split_and!; try done.
      intros held Hd. eapply Hpm. by eapply enqueue_panicked.
    + unfold sendErr. destruct (enqueue _ _ _) as [p| |] eqn:Hsend; [|done..].
      intros [= <-].
      destruct (pipeInv_enqueue _ _ _ _ _ He Hsend) as (He' & Hq & Hcl & Hlive).
      unfold engineInv, msgCh, errCh in *; cbn.
      rewrite Hq, Hcl, Hlive. split_and!; try done.
      intros held Hd. eapply Hpe. by eapply enqueue_panicked.
  - unfold handleMessages.
    destruct (drainStep _ _) as [[p ev]|reason|] eqn:Hstep; [| |done].
    + destruct (pipeInv_drainStep _ _ _ _ _ Hm Hstep)
        as (Hm' & Hq & Hcl & _ & Hlive & Hcall).
      pose proof (live_bounds (drain p)).
      pose proof (live_bounds (drain (errs s))).
      destruct ev as [| |x call|].
      1,2,4: intros [= <-];
        unfold engineInv, msgCh, errCh in *; cbn;
        rewrite ?writtenMsgs_app, ?writtenErrs_app, ?app_nil_r, Hq, Hcl; cbn;
        split_and!; try done; try lia.
      all: try (intros held Hd; by destruct (drainStep_panicked _ _ _ _ held Hstep)).
      * intros Hr. specialize (Hret Hr). lia.
      * destruct (drainStep_logged _ _ _ _ _ Hstep) as (Hd0 & -> & _).
        assert (Forall (rendered l) (written s ++ [MsgDelivery x call])).
        { apply Forall_app. split; [done|]. by apply Forall_singleton. }
        destruct (logrus.panicsAfterWrite _); intros [= <-];
          unfold engineInv, msgCh, errCh in *; cbn;
          rewrite ?writtenMsgs_app, ?writtenErrs_app, ?app_nil_r; cbn;
          split_and!; try done; try (rewrite Hd0 in *; cbn in *; lia).
        by apply (pipeInv_panicked _ _ Hm').
    + destruct (drainStep_panics _ _ _ Hstep) as (x & Hd0 & _).
      intros [= <-]. unfold engineInv, msgCh, errCh in *; cbn.
      split_and!; try done; try (rewrite Hd0 in *; cbn in *; lia).
      apply (pipeInv_panicked _ _ Hm). by rewrite Hd0.
  - unfold handleErrors.
    destruct (drainStep _ _) as [[p ev]|reason|] eqn:Hstep; [| |done].
    + destruct (pipeInv_drainStep _ _ _ _ _ He Hstep)
        as (He' & Hq & Hcl & _ & Hlive & Hcall).
      pose proof (live_bounds (drain p)).
      pose proof (live_bounds (drain (msgs s))).
      destruct ev as [| |x call|].
      1,2,4: intros [= <-];
        unfold engineInv, msgCh, errCh in *; cbn;
        rewrite ?writtenMsgs_app, ?writtenErrs_app, ?app_nil_r, Hq, Hcl; cbn;
        split_and!; try done; try lia.
      all: try (intros held Hd; by destruct (drainStep_panicked _ _ _ _ held Hstep)).
      * intros Hr. specialize (Hret Hr). lia.
      * destruct (drainStep_logged _ _ _ _ _ Hstep) as (Hd0 & -> & _).
        assert (Forall (rendered l) (written s ++ [ErrDelivery x call])).
        { apply Forall_app. split; [done|]. by apply Forall_singleton. }
        destruct (logrus.panicsAfterWrite _); intros [= <-];
          unfold engineInv, msgCh, errCh in *; cbn;
          rewrite ?writtenMsgs_app, ?writtenErrs_app, ?app_nil_r; cbn;
          split_and!; try done; try (rewrite Hd0 in *; cbn in *; lia).
        by apply (pipeInv_panicked _ _ He').
    + destruct (drainStep_panics _ _ _ Hstep) as (x & Hd0 & _).
      intros [= <-]. unfold engineInv, msgCh, errCh in *; cbn.
      split_and!; try done; try (rewrite Hd0 in *; cbn in *; lia).
      apply (pipeInv_panicked _ _ He). by rewrite Hd0.
  - unfold cancel. destruct (shutdown s) eqn:Hph.
    + destruct (gochan.closechan _) as [c| |] eqn:Hclose; [|done..].
      intros [= <-].
      destruct (pipeInv_close _ _ _ Hm Hclose) as (Hm' & Hq & Hcl & Hop).
      unfold engineInv, msgCh, errCh in *; cbn.
      rewrite Hq, Hcl. split_and!; try done.
      * rewrite Hcle. split; [by intros [|]|]. by intros [|].
    + destruct (gochan.closechan _) as [c| |] eqn:Hclose; [|done..].
      intros [= <-].
      destruct (pipeInv_close _ _ _ He Hclose) as (He' & Hq & Hcl & Hop).
      unfold engineInv, msgCh, errCh in *; cbn.
      rewrite Hq, Hcl. split_and!; try done.
      * rewrite Hclm. by split.
      * split; [by left|done].
    + destruct (decide (wg s = 0)) as [Hz|]; [|done]. intros [= <-].
      unfold engineInv, msgCh, errCh in *; cbn.
      split_and!; try done.
      * rewrite Hclm. by split.
      * rewrite Hcle. split; [by right|by left].
    + destruct (gochan.closechan _) as [c| |] eqn:Hclose; [|done..].
      destruct (pipeInv_close _ _ _ Hm Hclose) as (_ & _ & _ & Hop).
      unfold msgCh in *. rewrite Hop in Hclm. by destruct Hclm as [_ Habs];
        specialize (Habs (λ H, ltac:(discriminate H))).
Qed.

Lemma engineInv_exec (l : Logrus) (cap : Z) (a : action) (s s' : engine) :
  engineInv l cap s → exec l a s = Some s' → engineInv l cap s'.
Proof.
  intros Hinv. unfold exec. destruct (crashed s); [done|].
  destruct (step l a s) as [s1|reason|] eqn:Hstep; [| |done].
  - intros [= <-]. by eapply engineInv_step.
  - intros [= <-]. by apply engineInv_crash.
Qed.

Lemma engineInv_run (l : Logrus) (cap : Z) (trace : list action) (s s' : engine) :
  engineInv l cap s → run l trace s = Some s' → engineInv l cap s'.
Proof.
  revert s. induction trace as [|a rest IH]; intros s Hinv; cbn.
  - by intros [= <-].
  - destruct (exec l a s) as [s1|] eqn:Hexec; [|done].
    apply IH. by eapply engineInv_exec.
Qed.

(** What [NewLogrus] hands out when it returns. *)
Lemma NewLogrus_started (maxElems : Z) (cfg : loggerconfig.Config)
    (output : logrus.Output) (c : constructed) :
  NewLogrus maxElems cfg output = Returns c →
  (0 ≤ loggerconfig.GetBufferCapacity cfg ≤ maxElems)%Z ∧
  started c = startEngine (gochan.emptyChan (loggerconfig.GetBufferCapacity cfg))
                          (gochan.emptyChan (loggerconfig.GetBufferCapacity cfg)) ∧
  err c = None ∧
  ∃ l, handle c = Some l ∧
       contextExtraFields l = loggerconfig.GetLoggerContextExtraFields cfg.
Proof.
  unfold NewLogrus, gochan.makechan.
  destruct (bool_decide (loggerconfig.GetBufferCapacity cfg < 0)%Z) eqn:Hneg;
    [done|].
  destruct (bool_decide (maxElems < loggerconfig.GetBufferCapacity cfg)%Z)
    eqn:Hbig; [done|].
  apply bool_decide_eq_false_1 in Hneg. apply bool_decide_eq_false_1 in Hbig.
  cbn. intros [= <-]. cbn. split_and!; try done; try lia. by eexists.
Qed.

Lemma reachable_engineInv (maxElems : Z) (cfg : loggerconfig.Config)
    (output : logrus.Output) (c : constructed) (l : Logrus) (s : engine) :
  NewLogrus maxElems cfg output = Returns c →
  reachable l (started c) s →
  engineInv l (loggerconfig.GetBufferCapacity cfg) s.
Proof.
  intros Hnew [trace Hrun].
  destruct (NewLogrus_started _ _ _ _ Hnew) as ([Hcap _] & Hstart & _).
  eapply engineInv_run; [|done]. rewrite Hstart. by apply engineInv_start.
Qed.

Lemma produce_closed_panics (who : producer) (caller : GoFields) (c : call)
    (s : engine) :
  targetClosed c s = true →
  produce who caller c s = Panics "send on closed channel".
Proof.
  intros Hcl. rewrite produce_send.
  destruct c; cbn in Hcl; unfold sendMsg, sendErr, msgCh, errCh in *;
    by rewrite enqueue_closed_panics.
Qed.

Lemma engineInv_returned (l : Logrus) (cap : Z) (s : engine) :
  engineInv l cap s → shutdown s = Returned →
  drain (msgs s) = Exited ∧ drain (errs s) = Exited ∧
  gochan.closed (msgCh s) = true ∧ gochan.closed (errCh s) = true ∧
  gochan.qbuf (msgCh s) = [] ∧ gochan.qbuf (errCh s) = [] ∧
  writtenMsgs (written s) = enqueued (msgs s) ∧
  writtenErrs (written s) = enqueued (errs s).
Proof.
  intros (Hm & He & _ & _ & Hwg & _ & _ & Hret & _) Hr.
  specialize (Hret Hr). rewrite Hret in Hwg.
  pose proof (live_bounds (drain (msgs s))) as Hlm.
  pose proof (live_bounds (drain (errs s))) as Hle.
  assert (drain (msgs s) = Exited) as Hxm.
  { destruct (drain (msgs s)); cbn in *; try lia; done. }
  assert (drain (errs s) = Exited) as Hxe.
  { destruct (drain (errs s)); cbn in *; try lia; done. }
  destruct Hm as (_ & Henqm & _ & _ & Hexm).
  destruct He as (_ & Henqe & _ & _ & Hexe).
  destruct (Hexm Hxm) as [Hclm Hbm]. destruct (Hexe Hxe) as [Hcle Hbe].
  unfold pending, msgCh, errCh in *.
  rewrite Hxm, Hbm in Henqm. rewrite Hxe, Hbe in Henqe.
  cbn in *. rewrite app_nil_r in Henqm, Henqe. by split_and!.
Qed.

(** ** Send histories *)


Lemma drainStep_enqueued {A} (h : A → outcome logrus.LogCall)
    (p p' : pipeline A) (ev : drainEvent A) :
  drainStep h p = Returns (p', ev) → enqueued p' = enqueued p.
Proof.
  unfold drainStep. destruct (drain p).
  - destruct (gochan.chanrecv (ch p)) as [c [x| |]]; by intros [= <- <-].
  - destruct (gochan.closed (ch p)); [|done]. by intros [= <- <-].
  - destruct (h (payload x)); [|done..]. by intros [= <- <-].
  - done.
  - done.
Qed.

(** A step appends to the send histories exactly the record of the call it
    completes. *)
Lemma step_enqueued (l : Logrus) (a : action) (s s' : engine) :
  step l a s = Returns s' →
  enqueued (msgs s') = (enqueued (msgs s) ++ producedMsgs [a])%list ∧
  enqueued (errs s') = (enqueued (errs s) ++ producedErrs [a])%list.
Proof.
  destruct a as [who caller c| | |]; cbn [step].
  - rewrite produce_send. destruct c as [f ctx msg fields|f ctx err fields].
    + unfold sendMsg. destruct (enqueue _ _ _) as [p| |] eqn:Hsend; [|done..].
      intros [= <-]. cbn. rewrite app_nil_r.
      by rewrite (enqueue_returns _ _ _ _ Hsend).
    + unfold sendErr. destruct (enqueue _ _ _) as [p| |] eqn:Hsend; [|done..].
      intros [= <-]. cbn. rewrite app_nil_r.
      by rewrite (enqueue_returns _ _ _ _ Hsend).
  - unfold handleMessages.
    destruct (drainStep _ _) as [[p ev]|reason|] eqn:Hstep; [| |done].
    + apply drainStep_enqueued in Hstep.
      destruct ev; try destruct (logrus.panicsAfterWrite _);
        intros [= <-]; cbn; by rewrite !app_nil_r.
    + intros [= <-]; cbn; by rewrite !app_nil_r.
  - unfold handleErrors.
    destruct (drainStep _ _) as [[p ev]|reason|] eqn:Hstep; [| |done].
    + apply drainStep_enqueued in Hstep.
      destruct ev; try destruct (logrus.panicsAfterWrite _);
        intros [= <-]; cbn; by rewrite !app_nil_r.
    + intros [= <-]; cbn; by rewrite !app_nil_r.
  - unfold cancel.
    destruct (shutdown s); try destruct (gochan.closechan _); try done;
      try (intros [= <-]; cbn; by rewrite !app_nil_r).
    destruct (decide (wg s = 0)); [|done].
    intros [= <-]; cbn; by rewrite !app_nil_r.
Qed.

(** The send histories of a run that did not crash are the records its
    calls constructed, in the order of the calls. *)
Lemma run_enqueued (l : Logrus) (trace : list action) (s s' : engine) :
  run l trace s = Some s' → crashed s' = None →
  enqueued (msgs s') = (enqueued (msgs s) ++ producedMsgs trace)%list ∧
  enqueued (errs s') = (enqueued (errs s) ++ producedErrs trace)%list.
Proof.
  revert s. induction trace as [|a rest IH]; intros s; cbn [run].
  - intros [= <-] _. cbn. by rewrite !app_nil_r.
  - destruct (exec l a s) as [s1|] eqn:Hexec; [|done].
    intros Hrun Halive. destruct (IH _ Hrun Halive) as [Hm He].
    assert (crashed s1 = None) as Hs1.
    { destruct rest as [|b rest']; cbn in Hrun.
      - by injection Hrun as ->.
      - unfold exec in Hrun. by destruct (crashed s1). }
    unfold exec in Hexec. destruct (crashed s); [done|].
    destruct (step l a s) as [s2|reason|] eqn:Hstep; [| |done].
    + injection Hexec as ->.
      destruct (step_enqueued _ _ _ _ Hstep) as [Hm1 He1].
      rewrite Hm, He, Hm1, He1, <- !app_assoc.
      split; f_equal.
      * by destruct a as [? ? []| | |].
      * by destruct a as [? ? []| | |].
    + injection Hexec as <-. done.
Qed.



(** What the writer was given is what the record says. *)
Lemma rendered_faithful (l : Logrus) (d : delivery) :
  rendered l d → faithful l d.
Proof.
  destruct d as [m call|e call]; cbn.
  - intros [= <-]. cbn. split_and!; try done. intros k. apply merged_lookup.
  - unfold handleError.
    destruct (loggerdto.err_Err (payload e)) as [v|] eqn:Herr; [|done].
    intros [= <-]. cbn. split_and!; try done.
    + by exists v.
    + intros k. apply merged_lookup.
Qed.

(** ** The dying process *)

Lemma step_rendered (l : Logrus) (a : action) (s s' : engine) :
  Forall (rendered l) (written s) → step l a s = Returns s' →
  Forall (rendered l) (written s').
Proof.
  intros Hlog. destruct a as [who caller c| | |]; cbn [step].
  - rewrite produce_send. destruct c; unfold sendMsg, sendErr;
      destruct (enqueue _ _ _); try done; by intros [= <-].
  - unfold handleMessages.
    destruct (drainStep _ _) as [[p ev]|reason|] eqn:Hstep; [| |done].
    + destruct ev as [| |x call|]; try (by intros [= <-]).
      destruct (drainStep_logged _ _ _ _ _ Hstep) as (_ & _ & Hcall).
      destruct (logrus.panicsAfterWrite _); intros [= <-]; cbn;
        (apply Forall_app; split; [done|]); by apply Forall_singleton.
    + by intros [= <-].
  - unfold handleErrors.
    destruct (drainStep _ _) as [[p ev]|reason|] eqn:Hstep; [| |done].
    + destruct ev as [| |x call|]; try (by intros [= <-]).
      destruct (drainStep_logged _ _ _ _ _ Hstep) as (_ & _ & Hcall).
      destruct (logrus.panicsAfterWrite _); intros [= <-]; cbn;
        (apply Forall_app; split; [done|]); by apply Forall_singleton.
    + by intros [= <-].
  - unfold cancel.
    destruct (shutdown s); try destruct (gochan.closechan _); try done;
      try (by intros [= <-]).
    destruct (decide (wg s = 0)); [|done]. by intros [= <-].
Qed.

Lemma deferred_written (s s' : engine) :
  deferred s = Some s' → written s' = written s.
Proof.
  unfold deferred.
  destruct (drain (msgs s)), (drain (errs s)); try done; by intros [= <-].
Qed.

Lemma runDying_rendered (l : Logrus) (dtrace : list dyingAction)
    (s s' : engine) :
  Forall (rendered l) (written s) → runDying l dtrace s = Some s' →
  Forall (rendered l) (written s').
Proof.
  revert s. induction dtrace as [|d rest IH]; intros s Hlog; cbn.
  - by intros [= <-].
  - destruct (execDying l d s) as [s1|] eqn:Hexec; [|done].
    apply IH. unfold execDying in Hexec.
    destruct (crashed s); [|done]. destruct d as [|a].
    + by rewrite (deferred_written _ _ Hexec).
    + destruct (step l a s) as [s2| |] eqn:Hstep; [|done..].
      injection Hexec as <-. by eapply step_rendered.
Qed.

(** A message loop that has panicked or left writes nothing more, whatever
    the goroutines that are still running do. *)
Lemma dead_loop_step (l : Logrus) (d : dyingAction) (s s' : engine) :
  (drain (msgs s) = Exited ∨ ∃ held, drain (msgs s) = Panicked held) →
  gochan.recvq (msgCh s) = false →
  execDying l d s = Some s' →
  (drain (msgs s') = Exited ∨ ∃ held, drain (msgs s') = Panicked held) ∧
  gochan.recvq (msgCh s') = false ∧
  writtenMsgs (written s') = writtenMsgs (written s).
Proof.
  intros Hdead Hrq. unfold execDying, msgCh in *.
  destruct (crashed s); [|done]. destruct d as [|a].
  - unfold deferred.
    destruct Hdead as [Hd|[held Hd]]; rewrite Hd.
    + destruct (drain (errs s)); try done. intros [= <-]. cbn.
      rewrite Hd. split_and!; try done. by left.
    + intros [= <-]. cbn. split_and!; try done. by left.
  - destruct (step l a s) as [s2| |] eqn:Hstep; [|done..]. intros [= <-].
    destruct a as [who caller c| | |]; cbn [step] in Hstep.
    + rewrite produce_send in Hstep.
      destruct c as [f ctx msg fields|f ctx err fields].
      * unfold sendMsg, enqueue, gochan.chansend in Hstep. rewrite Hrq in Hstep.
        destruct (gochan.closed (ch (msgs s))); [done|].
        destruct (bool_decide _); [|done]. by injection Hstep as <-.
      * unfold sendErr in Hstep. destruct (enqueue _ _ _); [|done..].
        by injection Hstep as <-.
    + unfold handleMessages, drainStep in Hstep.
      by destruct Hdead as [Hd|[held Hd]]; rewrite Hd in Hstep.
    + unfold handleErrors in Hstep.
      destruct (drainStep _ _) as [[p ev]|reason|]; [| |done].
      * destruct ev; try destruct (logrus.panicsAfterWrite _);
          injection Hstep as <-; cbn; by rewrite ?writtenMsgs_app, ?app_nil_r.
      * by injection Hstep as <-.
    + unfold cancel, gochan.closechan, msgCh, errCh in Hstep.
      destruct (shutdown s).
      * destruct (gochan.closed (ch (msgs s))); [done|].
        by injection Hstep as <-.
      * destruct (gochan.closed (ch (errs s))); [done|].
        by injection Hstep as <-.
      * destruct (decide (wg s = 0)); [|done]. by injection Hstep as <-.
      * destruct (gochan.closed (ch (msgs s))); [done|].
        by injection Hstep as <-.
Qed.

Lemma dead_loop_writes_nothing (l : Logrus) (dtrace : list dyingAction)
    (s s' : engine) :
  (drain (msgs s) = Exited ∨ ∃ held, drain (msgs s) = Panicked held) →
  gochan.recvq (msgCh s) = false →
  runDying l dtrace s = Some s' →
  writtenMsgs (written s') = writtenMsgs (written s).
Proof.
  revert s. induction dtrace as [|d rest IH]; intros s Hdead Hrq; cbn.
  - by intros [= <-].
  - destruct (execDying l d s) as [s1|] eqn:Hexec; [|done].
    destruct (dead_loop_step _ _ _ _ Hdead Hrq Hexec) as (Hdead1 & Hrq1 & <-).
    by apply IH.
Qed.

(** ** Capacity and backpressure *)

(** C5.  Both queues are made with the configured buffer capacity and keep
    it; in every state the engine can reach neither buffer holds more than
    that; a logging call on an open queue blocks exactly when the queue is
    full, and the receive of the drain goroutine makes room again; and
    every enqueued record is either with the writer or still pending, so
    none is dropped. *)
Theorem queues_bounded_by_capacity (maxElems : Z)
    (cfg : loggerconfig.Config) (output : logrus.Output) (c : constructed)
    (l : Logrus) (s : engine) :
  NewLogrus maxElems cfg output = Returns c →
  handle c = Some l →
  reachable l (started c) s →
  let cap := loggerconfig.GetBufferCapacity cfg in
  gochan.dataqsiz (msgCh (started c)) = cap ∧
  gochan.dataqsiz (errCh (started c)) = cap ∧
  gochan.dataqsiz (msgCh s) = cap ∧
  gochan.dataqsiz (errCh s) = cap ∧
  (gochan.qcount (msgCh s) ≤ cap)%Z ∧
  (gochan.qcount (errCh s) ≤ cap)%Z ∧
  (∀ who caller c', targetClosed c' s = false →
     produce who caller c' s = Blocks ↔ targetFull c' s = true) ∧
  (gochan.closed (msgCh s) = false → gochan.full (msgCh s) = true →
   drain (msgs s) = AtReceive →
   ∃ p' ev, drainStep (handleMessage l) (msgs s) = Returns (p', ev) ∧
            gochan.full (ch p') = false) ∧
  (gochan.closed (errCh s) = false → gochan.full (errCh s) = true →
   drain (errs s) = AtReceive →
   ∃ p' ev, drainStep (handleError l) (errs s) = Returns (p', ev) ∧
            gochan.full (ch p') = false) ∧
  enqueued (msgs s) = (writtenMsgs (written s) ++ pending (msgs s))%list ∧
  enqueued (errs s) = (writtenErrs (written s) ++ pending (errs s))%list.
Proof.
  intros Hnew _ Hreach cap. subst cap.
  pose proof (reachable_engineInv _ _ _ _ l _ Hnew Hreach) as Hinv.
  destruct (NewLogrus_started _ _ _ _ Hnew) as (_ & Hstart & _).
  pose proof Hinv as (Hm & He & Hcm & Hce & _).
  pose proof Hm as (Hbm & Henqm & _). pose proof He as (Hbe & Henqe & _).
  unfold msgCh, errCh in *. split_and!; try done.
  - by rewrite Hstart.
  - by rewrite Hstart.
  - by rewrite <- Hcm.
  - by rewrite <- Hce.
  - intros who caller c' Hopen. rewrite produce_send.
    destruct c' as [f ctx msg fields|f ctx err fields]; cbn in *.
    + unfold sendMsg, msgCh in *.
      rewrite <- (enqueue_blocks_iff_full who
                    (loggerdto.NewMsg caller ctx (msgMethodLevel f) msg fields)
                    _ _ Hm Hopen).
      by destruct (enqueue _ _ _).
    + unfold sendErr, errCh in *.
      rewrite <- (enqueue_blocks_iff_full who
                    (loggerdto.NewErr caller ctx (errMethodLevel f) err fields)
                    _ _ He Hopen).
      by destruct (enqueue _ _ _).
  - intros Hopen Hfull Hd. by eapply drainStep_frees.
  - intros Hopen Hfull Hd. by eapply drainStep_frees.
Qed.

Lemma queues_bounded_by_capacity_witness :
  gochan.full (msgCh demoFull) = true ∧
  infoMsg "three" = Produce 1%nat demoCaller (CallMsg MInfoMsg demoCtx "three" ∅) ∧
  produce 1%nat demoCaller (CallMsg MInfoMsg demoCtx "three" ∅) demoFull = Blocks ∧
  let cap := loggerconfig.GetBufferCapacity demoConfig in
  gochan.dataqsiz (msgCh (started demoBuilt)) = cap ∧
  gochan.dataqsiz (errCh (started demoBuilt)) = cap ∧
  gochan.dataqsiz (msgCh demoFull) = cap ∧
  gochan.dataqsiz (errCh demoFull) = cap ∧
  (gochan.qcount (msgCh demoFull) ≤ cap)%Z ∧
  (gochan.qcount (errCh demoFull) ≤ cap)%Z ∧
  (∀ who caller c', targetClosed c' demoFull = false →
     produce who caller c' demoFull = Blocks ↔ targetFull c' demoFull = true) ∧
  (gochan.closed (msgCh demoFull) = false → gochan.full (msgCh demoFull) = true →
   drain (msgs demoFull) = AtReceive →
   ∃ p' ev, drainStep (handleMessage demoLogger) (msgs demoFull) = Returns (p', ev) ∧
            gochan.full (ch p') = false) ∧
  (gochan.closed (errCh demoFull) = false → gochan.full (errCh demoFull) = true →
   drain (errs demoFull) = AtReceive →
   ∃ p' ev, drainStep (handleError demoLogger) (errs demoFull) = Returns (p', ev) ∧
            gochan.full (ch p') = false) ∧
  enqueued (msgs demoFull)
  = (writtenMsgs (written demoFull) ++ pending (msgs demoFull))%list ∧
  enqueued (errs demoFull)
  = (writtenErrs (written demoFull) ++ pending (errs demoFull))%list.
Proof.
  split; [reflexivity|]. split; [reflexivity|]. split; [reflexivity|].
  apply (queues_bounded_by_capacity maxElems64 demoConfig logrus.OutStdout
           demoBuilt demoLogger demoFull).
  - reflexivity.
  - reflexivity.
  - exists demoFill. vm_compute. reflexivity.
Defined.

(** ** The shutdown completes *)

Lemma run_app (l : Logrus) (t1 t2 : list action) (s s1 s2 : engine) :
  run l t1 s = Some s1 → run l t2 s1 = Some s2 →
  run l (t1 ++ t2) s = Some s2.
Proof.
  revert s. induction t1 as [|a t1 IH]; intros s; cbn.
  - by intros [= ->].
  - destruct (exec l a s); [|done]. apply IH.
Qed.

Lemma producedMsgs_app (t1 t2 : list action) :
  producedMsgs (t1 ++ t2) = (producedMsgs t1 ++ producedMsgs t2)%list.
Proof.
  induction t1 as [|[who caller [f ctx msg fields|f ctx err fields]| | |] t1 IH];
    cbn; by rewrite ?IH.
Qed.

Lemma producedErrs_app (t1 t2 : list action) :
  producedErrs (t1 ++ t2) = (producedErrs t1 ++ producedErrs t2)%list.
Proof.
  induction t1 as [|[who caller [f ctx msg fields|f ctx err fields]| | |] t1 IH];
    cbn; by rewrite ?IH.
Qed.

Lemma quiet_app (t1 t2 : list action) : quiet t1 → quiet t2 → quiet (t1 ++ t2).
Proof.
  intros [Hm1 He1] [Hm2 He2]. unfold quiet.
  by rewrite producedMsgs_app, producedErrs_app, Hm1, He1, Hm2, He2.
Qed.

(** Unfolds one step of a goroutine on a state whose relevant parts are
    known by equations in the context. *)
Ltac run_step :=
  unfold exec, step, handleMessages, handleErrors, cancel, drainStep,
    gochan.chanrecv, gochan.closechan, handleMessage, msgCh, errCh;
  repeat match goal with
         | H : crashed _ = None |- _ => rewrite H
         | H : drain _ = _ |- _ => rewrite H
         | H : gochan.qbuf _ = _ |- _ => rewrite H
         | H : gochan.closed _ = _ |- _ => rewrite H
         | H : shutdown _ = _ |- _ => rewrite H
         | H : wg _ = _ |- _ => rewrite H
         | H : handleError _ _ = _ |- _ => rewrite H
         end;
  cbn;
  repeat match goal with
         | H : logrus.panicsAfterWrite _ = _ |- _ => rewrite H
         end.

Ltac step_effect :=
  eexists; split; [run_step; reflexivity | cbn; by split_and!].

Section DrainSteps.
Variable l : Logrus.
Variable s : engine.
Hypothesis Halive : crashed s = None.

Lemma handleMessages_receives x rest :
  drain (msgs s) = AtReceive → gochan.qbuf (msgCh s) = x :: rest →
  ∃ s1, exec l DrainMessages s = Some s1 ∧ crashed s1 = None ∧
        drain (msgs s1) = Handling x ∧ gochan.qbuf (msgCh s1) = rest ∧
        gochan.closed (msgCh s1) = gochan.closed (msgCh s) ∧
        errs s1 = errs s ∧ shutdown s1 = shutdown s.
Proof. unfold msgCh. intros Hd Hbuf. step_effect. Qed.

Lemma handleMessages_logs x :
  drain (msgs s) = Handling x → ¬ msgPanics x →
  ∃ s1, exec l DrainMessages s = Some s1 ∧ crashed s1 = None ∧
        drain (msgs s1) = AtReceive ∧
        gochan.qbuf (msgCh s1) = gochan.qbuf (msgCh s) ∧
        gochan.closed (msgCh s1) = gochan.closed (msgCh s) ∧
        errs s1 = errs s ∧ shutdown s1 = shutdown s.
Proof.
  unfold msgCh, msgPanics. intros Hd Hx.
  assert (logrus.panicsAfterWrite
            (getLevel (loggerdto.msg_Level (payload x))) = false) as Hp.
  { by apply bool_decide_eq_false_2. }
  step_effect.
Qed.

(** A record of panic level is written, and the writer's panic ends the
    loop. *)
Lemma handleMessages_dies x :
  drain (msgs s) = Handling x → msgPanics x →
  ∃ s1 call, exec l DrainMessages s = Some s1 ∧
        crashed s1 = Some logrus.panicValue ∧
        drain (msgs s1) = Panicked None ∧
        written s1 = (written s ++ [MsgDelivery x call])%list ∧
        handleMessage l (payload x) = Returns call ∧
        ch (msgs s1) = ch (msgs s) ∧
        errs s1 = errs s ∧ shutdown s1 = shutdown s ∧ wg s1 = wg s.
Proof.
  unfold msgCh, msgPanics. intros Hd Hx.
  assert (logrus.panicsAfterWrite
            (getLevel (loggerdto.msg_Level (payload x))) = true) as Hp.
  { by apply bool_decide_eq_true_2. }
  eexists _, _. split; [run_step; reflexivity | cbn; by split_and!].
Qed.

Lemma handleMessages_leaves :
  (drain (msgs s) = AtReceive ∧ gochan.qbuf (msgCh s) = []
   ∨ drain (msgs s) = Parked) →
  gochan.closed (msgCh s) = true →
  ∃ s1, exec l DrainMessages s = Some s1 ∧ crashed s1 = None ∧
        drain (msgs s1) = Exited ∧ errs s1 = errs s ∧
        shutdown s1 = shutdown s.
Proof. unfold msgCh. intros [[Hd Hbuf]|Hd] Hcl; step_effect. Qed.

Lemma handleErrors_receives x rest :
  drain (errs s) = AtReceive → gochan.qbuf (errCh s) = x :: rest →
  ∃ s1, exec l DrainErrors s = Some s1 ∧ crashed s1 = None ∧
        drain (errs s1) = Handling x ∧ gochan.qbuf (errCh s1) = rest ∧
        gochan.closed (errCh s1) = gochan.closed (errCh s) ∧
        msgs s1 = msgs s ∧ shutdown s1 = shutdown s.
Proof. unfold errCh. intros Hd Hbuf. step_effect. Qed.

Lemma handleErrors_logs x :
  drain (errs s) = Handling x → ¬ errPanics x →
  ∃ s1, exec l DrainErrors s = Some s1 ∧ crashed s1 = None ∧
        drain (errs s1) = AtReceive ∧
        gochan.qbuf (errCh s1) = gochan.qbuf (errCh s) ∧
        gochan.closed (errCh s1) = gochan.closed (errCh s) ∧
        msgs s1 = msgs s ∧ shutdown s1 = shutdown s.
Proof.
  unfold errCh, errPanics. intros Hd Hx.
  destruct (loggerdto.err_Err (payload x)) as [v|] eqn:Herr; [|tauto].
  assert (handleError l (payload x)
          = Returns (logrus.Log (errEntry l (payload x))
                       (getLevel (loggerdto.err_Level (payload x)))
                       (err_text v))) as Hh.
  { unfold handleError. by rewrite Herr. }
  assert (logrus.panicsAfterWrite
            (getLevel (loggerdto.err_Level (payload x))) = false) as Hp.
  { apply bool_decide_eq_false_2. tauto. }
  step_effect.
Qed.

(** A nil error makes the loop body panic before the writer is called. *)
Lemma handleErrors_nil x :
  drain (errs s) = Handling x → loggerdto.err_Err (payload x) = None →
  ∃ s1, exec l DrainErrors s = Some s1 ∧
        crashed s1 = Some "invalid memory address or nil pointer dereference" ∧
        drain (errs s1) = Panicked (Some x) ∧ written s1 = written s ∧
        gochan.qbuf (errCh s1) = gochan.qbuf (errCh s) ∧
        msgs s1 = msgs s ∧ shutdown s1 = shutdown s ∧ wg s1 = wg s.
Proof.
  unfold errCh. intros Hd Herr.
  assert (handleError l (payload x)
          = Panics "invalid memory address or nil pointer dereference") as Hh.
  { unfold handleError. by rewrite Herr. }
  step_effect.
Qed.

Lemma handleErrors_leaves :
  (drain (errs s) = AtReceive ∧ gochan.qbuf (errCh s) = []
   ∨ drain (errs s) = Parked) →
  gochan.closed (errCh s) = true →
  ∃ s1, exec l DrainErrors s = Some s1 ∧ crashed s1 = None ∧
        drain (errs s1) = Exited ∧ msgs s1 = msgs s ∧
        shutdown s1 = shutdown s.
Proof. unfold errCh. intros [[Hd Hbuf]|Hd] Hcl; step_effect. Qed.
End DrainSteps.

Lemma run_cons (l : Logrus) (a : action) (t : list action) (s s1 s2 : engine) :
  exec l a s = Some s1 → run l t s1 = Some s2 → run l (a :: t) s = Some s2.
Proof. intros Hexec Hrun. cbn. by rewrite Hexec. Qed.

Lemma quiet_drain (a : action) (t : list action) :
  a = DrainMessages ∨ a = DrainErrors ∨ a = Cancel → quiet t → quiet (a :: t).
Proof. by intros [->|[->| ->]]. Qed.

Lemma quiet_only (a : action) (t : list action) :
  a = DrainMessages ∨ a = DrainErrors ∨ a = Cancel →
  Forall (λ b, b = a) t → quiet t.
Proof.
  intros Ha. induction 1 as [|b t -> _ IH]; [done|]. by apply quiet_drain.
Qed.

(** Closes the goals left after a composed run: the run itself, its
    quietness and the frame equations. *)
Ltac run_done :=
  first [ done
        | congruence
        | repeat (eapply run_cons; [eassumption|]); first [eassumption | done]
        | repeat (apply quiet_drain; [auto|]); done
        | repeat (apply Forall_cons; split; [done|]); done ].

(** The drain goroutine of the message queue writes what is buffered, as
    long as no record makes the writer panic. *)
Lemma handleMessages_forwards_buffer (l : Logrus)
    (buf : list (tagged loggerdto.MsgDto)) :
  ∀ s, crashed s = None → drain (msgs s) = AtReceive →
       gochan.qbuf (msgCh s) = buf → Forall (λ m, ¬ msgPanics m) buf →
  ∃ trace s', run l trace s = Some s' ∧
              Forall (λ a, a = DrainMessages) trace ∧ crashed s' = None ∧
              drain (msgs s') = AtReceive ∧ gochan.qbuf (msgCh s') = [] ∧
              gochan.closed (msgCh s') = gochan.closed (msgCh s) ∧
              errs s' = errs s ∧ shutdown s' = shutdown s.
Proof.
  induction buf as [|x rest IH]; intros s Hcr Hd Hbuf Hok.
  - exists [], s. by split_and!.
  - apply Forall_cons in Hok as [Hx Hrest].
    destruct (handleMessages_receives l s Hcr x rest Hd Hbuf)
      as (s1 & Hexec1 & Hcr1 & Hd1 & Hbuf1 & Hcl1 & He1 & Hsh1).
    destruct (handleMessages_logs l s1 Hcr1 x Hd1 Hx)
      as (s2 & Hexec2 & Hcr2 & Hd2 & Hbuf2 & Hcl2 & He2 & Hsh2).
    destruct (IH s2)
      as (trace & s' & Hrun & Hq & Hcr' & Hd' & Hbuf' & Hcl' & He' & Hsh');
      try congruence; try done.
    exists (DrainMessages :: DrainMessages :: trace), s'.
    split_and!; run_done.
Qed.

(** Whatever the loop was doing, it gets through its pending records. *)
Lemma handleMessages_forwards (l : Logrus) (s : engine)
    (d : list (tagged loggerdto.MsgDto)) :
  pipeInv (msgs s) d → crashed s = None →
  (∀ held, drain (msgs s) = Panicked held → crashed s ≠ None) →
  Forall (λ m, ¬ msgPanics m) (pending (msgs s)) →
  ∃ trace s', run l trace s = Some s' ∧
              Forall (λ a, a = DrainMessages) trace ∧ crashed s' = None ∧
              pending (msgs s') = [] ∧
              (drain (msgs s') = AtReceive ∨ drain (msgs s') = Parked
               ∨ drain (msgs s') = Exited) ∧
              gochan.closed (msgCh s') = gochan.closed (msgCh s) ∧
              errs s' = errs s ∧ shutdown s' = shutdown s.
Proof.
  intros (_ & _ & _ & Hpark & Hexit) Hcr Hpan Hok. unfold pending in *.
  destruct (drain (msgs s)) as [| |x| |held] eqn:Hd.
  - destruct (handleMessages_forwards_buffer l (gochan.qbuf (msgCh s)) s)
      as (trace & s' & Hrun & Hq & Hcr' & Hd' & Hbuf' & Hcl' & He' & Hsh');
      try done.
    exists trace, s'. unfold msgCh in *. rewrite Hd', Hbuf'.
    split_and!; try done. by left.
  - destruct (Hpark eq_refl) as [Hbuf _].
    exists [], s. rewrite Hd, Hbuf. split_and!; try done. right. by left.
  - cbn in Hok. apply Forall_cons in Hok as [Hx Hrest].
    destruct (handleMessages_logs l s Hcr x Hd Hx)
      as (s1 & Hexec1 & Hcr1 & Hd1 & Hbuf1 & Hcl1 & He1 & Hsh1).
    destruct (handleMessages_forwards_buffer l (gochan.qbuf (msgCh s1)) s1)
      as (trace & s' & Hrun & Hq & Hcr' & Hd' & Hbuf' & Hcl' & He' & Hsh');
      try done.
    { unfold msgCh in *. by rewrite Hbuf1. }
    exists (DrainMessages :: trace), s'. unfold msgCh in *.
    rewrite Hd', Hbuf'. split_and!; try run_done. by left.
  - destruct (Hexit eq_refl) as [_ Hbuf].
    exists [], s. rewrite Hd, Hbuf. split_and!; try done. right. by right.
  - by destruct (Hpan held).
Qed.

(** Once the queue is closed the loop leaves after that. *)
Lemma handleMessages_exits (l : Logrus) (s : engine)
    (d : list (tagged loggerdto.MsgDto)) :
  pipeInv (msgs s) d → crashed s = None →
  (∀ held, drain (msgs s) = Panicked held → crashed s ≠ None) →
  Forall (λ m, ¬ msgPanics m) (pending (msgs s)) →
  gochan.closed (msgCh s) = true →
  ∃ trace s', run l trace s = Some s' ∧ quiet trace ∧ crashed s' = None ∧
              drain (msgs s') = Exited ∧ errs s' = errs s ∧
              shutdown s' = shutdown s.
Proof.
  intros Hinv Hcr Hpan Hok Hcl.
  destruct (handleMessages_forwards l s d Hinv Hcr Hpan Hok)
    as (t1 & s1 & Hrun1 & Hq1 & Hcr1 & Hpend1 & Hd1 & Hcl1 & He1 & Hsh1).
  apply (quiet_only DrainMessages) in Hq1; [|by left].
  assert (∃ t2 s2, run l t2 s1 = Some s2 ∧ quiet t2 ∧ crashed s2 = None ∧
                   drain (msgs s2) = Exited ∧ errs s2 = errs s1 ∧
                   shutdown s2 = shutdown s1)
    as (t2 & s2 & Hrun2 & Hq2 & Hcr2 & Hd2 & He2 & Hsh2).
  { unfold pending in Hpend1. destruct Hd1 as [Hd1|[Hd1|Hd1]].
    - rewrite Hd1 in Hpend1. cbn in Hpend1.
      destruct (handleMessages_leaves l s1 Hcr1 (or_introl (conj Hd1 Hpend1)))
        as (s2 & Hexec & Hcr2 & Hd2 & He2 & Hsh2); [congruence|].
      exists [DrainMessages], s2. split_and!; run_done.
    - destruct (handleMessages_leaves l s1 Hcr1 (or_intror Hd1))
        as (s2 & Hexec & Hcr2 & Hd2 & He2 & Hsh2); [congruence|].
      exists [DrainMessages], s2. split_and!; run_done.
    - exists [], s1. by split_and!. }
  exists (t1 ++ t2)%list, s2. split_and!; try congruence.
  - by eapply run_app.
  - by apply quiet_app.
Qed.

(** The same for the error queue; there a nil error makes the loop body
    panic as well. *)
Lemma handleErrors_forwards_buffer (l : Logrus)
    (buf : list (tagged loggerdto.ErrDto)) :
  ∀ s, crashed s = None → drain (errs s) = AtReceive →
       gochan.qbuf (errCh s) = buf → Forall (λ e, ¬ errPanics e) buf →
  ∃ trace s', run l trace s = Some s' ∧
              Forall (λ a, a = DrainErrors) trace ∧ crashed s' = None ∧
              drain (errs s') = AtReceive ∧ gochan.qbuf (errCh s') = [] ∧
              gochan.closed (errCh s') = gochan.closed (errCh s) ∧
              msgs s' = msgs s ∧ shutdown s' = shutdown s.
Proof.
  induction buf as [|x rest IH]; intros s Hcr Hd Hbuf Hok.
  - exists [], s. by split_and!.
  - apply Forall_cons in Hok as [Hx Hrest].
    destruct (handleErrors_receives l s Hcr x rest Hd Hbuf)
      as (s1 & Hexec1 & Hcr1 & Hd1 & Hbuf1 & Hcl1 & He1 & Hsh1).
    destruct (handleErrors_logs l s1 Hcr1 x Hd1 Hx)
      as (s2 & Hexec2 & Hcr2 & Hd2 & Hbuf2 & Hcl2 & He2 & Hsh2).
    destruct (IH s2)
      as (trace & s' & Hrun & Hq & Hcr' & Hd' & Hbuf' & Hcl' & He' & Hsh');
      try congruence; try done.
    exists (DrainErrors :: DrainErrors :: trace), s'.
    split_and!; run_done.
Qed.

Lemma handleErrors_forwards (l : Logrus) (s : engine)
    (d : list (tagged loggerdto.ErrDto)) :
  pipeInv (errs s) d → crashed s = None →
  (∀ held, drain (errs s) = Panicked held → crashed s ≠ None) →
  Forall (λ e, ¬ errPanics e) (pending (errs s)) →
  ∃ trace s', run l trace s = Some s' ∧
              Forall (λ a, a = DrainErrors) trace ∧ crashed s' = None ∧
              pending (errs s') = [] ∧
              (drain (errs s') = AtReceive ∨ drain (errs s') = Parked
               ∨ drain (errs s') = Exited) ∧
              gochan.closed (errCh s') = gochan.closed (errCh s) ∧
              msgs s' = msgs s ∧ shutdown s' = shutdown s.
Proof.
  intros (_ & _ & _ & Hpark & Hexit) Hcr Hpan Hok. unfold pending in *.
  destruct (drain (errs s)) as [| |x| |held] eqn:Hd.
  - destruct (handleErrors_forwards_buffer l (gochan.qbuf (errCh s)) s)
      as (trace & s' & Hrun & Hq & Hcr' & Hd' & Hbuf' & Hcl' & He' & Hsh');
      try done.
    exists trace, s'. unfold errCh in *. rewrite Hd', Hbuf'.
    split_and!; try done. by left.
  - destruct (Hpark eq_refl) as [Hbuf _].
    exists [], s. rewrite Hd, Hbuf. split_and!; try done. right. by left.
  - cbn in Hok. apply Forall_cons in Hok as [Hx Hrest].
    destruct (handleErrors_logs l s Hcr x Hd Hx)
      as (s1 & Hexec1 & Hcr1 & Hd1 & Hbuf1 & Hcl1 & He1 & Hsh1).
    destruct (handleErrors_forwards_buffer l (gochan.qbuf (errCh s1)) s1)
      as (trace & s' & Hrun & Hq & Hcr' & Hd' & Hbuf' & Hcl' & He' & Hsh');
      try done.
    { unfold errCh in *. by rewrite Hbuf1. }
    exists (DrainErrors :: trace), s'. unfold errCh in *.
    rewrite Hd', Hbuf'. split_and!; try run_done. by left.
  - destruct (Hexit eq_refl) as [_ Hbuf].
    exists [], s. rewrite Hd, Hbuf. split_and!; try done. right. by right.
  - by destruct (Hpan held).
Qed.

Lemma handleErrors_exits (l : Logrus) (s : engine)
    (d : list (tagged loggerdto.ErrDto)) :
  pipeInv (errs s) d → crashed s = None →
  (∀ held, drain (errs s) = Panicked held → crashed s ≠ None) →
  Forall (λ e, ¬ errPanics e) (pending (errs s)) →
  gochan.closed (errCh s) = true →
  ∃ trace s', run l trace s = Some s' ∧ quiet trace ∧ crashed s' = None ∧
              drain (errs s') = Exited ∧ msgs s' = msgs s ∧
              shutdown s' = shutdown s.
Proof.
  intros Hinv Hcr Hpan Hok Hcl.
  destruct (handleErrors_forwards l s d Hinv Hcr Hpan Hok)
    as (t1 & s1 & Hrun1 & Hq1 & Hcr1 & Hpend1 & Hd1 & Hcl1 & He1 & Hsh1).
  apply (quiet_only DrainErrors) in Hq1; [|right; by left].
  assert (∃ t2 s2, run l t2 s1 = Some s2 ∧ quiet t2 ∧ crashed s2 = None ∧
                   drain (errs s2) = Exited ∧ msgs s2 = msgs s1 ∧
                   shutdown s2 = shutdown s1)
    as (t2 & s2 & Hrun2 & Hq2 & Hcr2 & Hd2 & He2 & Hsh2).
  { unfold pending in Hpend1. destruct Hd1 as [Hd1|[Hd1|Hd1]].
    - rewrite Hd1 in Hpend1. cbn in Hpend1.
      destruct (handleErrors_leaves l s1 Hcr1 (or_introl (conj Hd1 Hpend1)))
        as (s2 & Hexec & Hcr2 & Hd2 & He2 & Hsh2); [congruence|].
      exists [DrainErrors], s2. split_and!; run_done.
    - destruct (handleErrors_leaves l s1 Hcr1 (or_intror Hd1))
        as (s2 & Hexec & Hcr2 & Hd2 & He2 & Hsh2); [congruence|].
      exists [DrainErrors], s2. split_and!; run_done.
    - exists [], s1. by split_and!. }
  exists (t1 ++ t2)%list, s2. split_and!; try congruence.
  - by eapply run_app.
  - by apply quiet_app.
Qed.

Section CancelSteps.
Variable l : Logrus.
Variable s : engine.
Hypothesis Halive : crashed s = None.

Lemma cancel_closes_msgCh :
  shutdown s = Running → gochan.closed (msgCh s) = false →
  ∃ s1, exec l Cancel s = Some s1 ∧ crashed s1 = None ∧
        shutdown s1 = ClosedMsgCh ∧ errs s1 = errs s ∧
        pending (msgs s1) = pending (msgs s).
Proof. unfold msgCh. intros Hph Hcl. step_effect. Qed.

Lemma cancel_closes_errCh :
  shutdown s = ClosedMsgCh → gochan.closed (errCh s) = false →
  ∃ s1, exec l Cancel s = Some s1 ∧ crashed s1 = None ∧
        shutdown s1 = ClosedErrCh ∧ pending (errs s1) = pending (errs s) ∧
        msgs s1 = msgs s.
Proof. unfold errCh. intros Hph Hcl. step_effect. Qed.

Lemma cancel_waits :
  shutdown s = ClosedErrCh → wg s = 0 →
  ∃ s1, exec l Cancel s = Some s1 ∧ crashed s1 = None ∧
        shutdown s1 = Returned.
Proof. intros Hph Hwg. step_effect. Qed.
End CancelSteps.

Lemma not_true_false (b : bool) : b ≠ true → b = false.
Proof. by destruct b. Qed.

(** The shutdown signal: the closure closes both queues. *)
Lemma cancel_signals (l : Logrus) (cap : Z) (s : engine) :
  engineInv l cap s → crashed s = None → shutdown s ≠ Returned →
  ∃ trace s1, run l trace s = Some s1 ∧ quiet trace ∧ crashed s1 = None ∧
              shutdown s1 = ClosedErrCh ∧
              pending (errs s1) = pending (errs s) ∧
              pending (msgs s1) = pending (msgs s).
Proof.
  intros Hinv Hcr Hph.
  assert (∀ s0, engineInv l cap s0 → crashed s0 = None →
                shutdown s0 = ClosedMsgCh →
                ∃ s1, exec l Cancel s0 = Some s1 ∧ crashed s1 = None ∧
                      shutdown s1 = ClosedErrCh ∧
                      pending (errs s1) = pending (errs s0) ∧
                      msgs s1 = msgs s0) as Hsecond.
  { intros s0 (_ & _ & _ & _ & _ & _ & Hcle & _) Hcr0 Hph0.
    apply cancel_closes_errCh; [done..|].
    apply not_true_false. rewrite Hcle, Hph0. by intros [|]. }
  destruct (shutdown s) eqn:Hsh; [| | |done].
  - pose proof Hinv as (_ & _ & _ & _ & _ & Hclm & _).
    destruct (cancel_closes_msgCh l s Hcr Hsh)
      as (s1 & Hexec1 & Hcr1 & Hph1 & He1 & Hpm1).
    { apply not_true_false. rewrite Hclm, Hsh. by intros Hne. }
    destruct (Hsecond s1) as (s2 & Hexec2 & Hcr2 & Hph2 & He2 & Hm2);
      [|done..|].
    { by eapply engineInv_exec. }
    exists [Cancel; Cancel], s2. split_and!; run_done.
  - destruct (Hsecond s) as (s2 & Hexec2 & Hcr2 & Hph2 & He2 & Hm2); [done..|].
    exists [Cancel], s2. split_and!; run_done.
  - exists [], s. by split_and!.
Qed.

(** From any state that has not crashed, with no pending record that makes
    a loop body panic, the shutdown closure can run to its end without any
    further send. *)
Lemma shutdown_completes (l : Logrus) (cap : Z) (s : engine) :
  engineInv l cap s → crashed s = None → shutdown s ≠ Returned →
  Forall (λ m, ¬ msgPanics m) (pending (msgs s)) →
  Forall (λ e, ¬ errPanics e) (pending (errs s)) →
  ∃ trace s', run l trace s = Some s' ∧ quiet trace ∧ crashed s' = None ∧
              shutdown s' = Returned.
Proof.
  intros Hinv Hcr Hph Hokm Hoke.
  destruct (cancel_signals l cap s Hinv Hcr Hph)
    as (t1 & s1 & Hrun1 & Hq1 & Hcr1 & Hph1 & Hpe1 & Hpm1).
  pose proof (engineInv_run _ _ _ _ _ Hinv Hrun1) as Hinv1.
  pose proof Hinv1 as (Hpipem1 & _ & _ & _ & _ & Hclm1 & Hcle1 & _ & _ & Hpanm1 & _).
  assert (gochan.closed (msgCh s1) = true) as Hm1.
  { apply Hclm1. by rewrite Hph1. }
  assert (gochan.closed (errCh s1) = true) as He1.
  { apply Hcle1. by left. }
  destruct (handleMessages_exits l s1 _ Hpipem1 Hcr1 Hpanm1)
    as (t2 & s2 & Hrun2 & Hq2 & Hcr2 & Hd2 & Herrs2 & Hph2);
    [by rewrite Hpm1|done|].
  pose proof (engineInv_run _ _ _ _ _ Hinv1 Hrun2) as Hinv2.
  pose proof Hinv2 as (_ & Hpipee2 & _ & _ & _ & _ & _ & _ & _ & _ & Hpane2).
  destruct (handleErrors_exits l s2 _ Hpipee2 Hcr2 Hpane2)
    as (t3 & s3 & Hrun3 & Hq3 & Hcr3 & Hd3 & Hmsgs3 & Hph3).
  { by rewrite Herrs2, Hpe1. }
  { unfold errCh in *. by rewrite Herrs2. }
  pose proof (engineInv_run _ _ _ _ _ Hinv2 Hrun3) as Hinv3.
  pose proof Hinv3 as (_ & _ & _ & _ & Hwg3 & _).
  rewrite Hd3, Hmsgs3, Hd2 in Hwg3. cbn in Hwg3.
  destruct (cancel_waits l s3 Hcr3) as (s4 & Hexec4 & Hcr4 & Hph4);
    [congruence|done|].
  exists (t1 ++ t2 ++ t3 ++ [Cancel])%list, s4. split_and!; try done.
  - eapply run_app; [done|]. eapply run_app; [done|].
    eapply run_app; [done|]. by eapply run_cons.
  - repeat (apply quiet_app; [done|]). done.
Qed.

(** ** Order *)



(** ** No record is lost *)

(** C1 (amended).  In every state the engine can reach up to its first
    panic, each record whose send completed has either been passed to the
    writer once or is still held by the drain goroutine or the queue, in
    order, and the writer got each record's own text, level and merged
    fields; a send after the shutdown signal does not complete; and once
    the shutdown closure has returned in a process in which nothing has
    panicked, both drain loops have left on a closed and empty queue and
    the writer has received exactly the records that were enqueued.  The
    closure gets there if no pending record makes a loop body panic: from a
    state that has not crashed and holds neither a record of panic level
    nor an error record without an error, some run without further sends
    ends with the closure returned and every enqueued record written. *)
Theorem shutdown_drains_every_record (maxElems : Z)
    (cfg : loggerconfig.Config) (output : logrus.Output) (c : constructed)
    (l : Logrus) (s : engine) :
  NewLogrus maxElems cfg output = Returns c →
  handle c = Some l →
  reachable l (started c) s →
  enqueued (msgs s) = (writtenMsgs (written s) ++ pending (msgs s))%list ∧
  enqueued (errs s) = (writtenErrs (written s) ++ pending (errs s))%list ∧
  Forall (faithful l) (written s) ∧
  (∀ who caller c', targetClosed c' s = true →
     produce who caller c' s = Panics "send on closed channel") ∧
  (crashed s = None → shutdown s = Returned →
     drain (msgs s) = Exited ∧ drain (errs s) = Exited ∧
     gochan.closed (msgCh s) = true ∧ gochan.closed (errCh s) = true ∧
     gochan.qbuf (msgCh s) = [] ∧ gochan.qbuf (errCh s) = [] ∧
     writtenMsgs (written s) = enqueued (msgs s) ∧
     writtenErrs (written s) = enqueued (errs s)) ∧
  (crashed s = None → shutdown s ≠ Returned →
   Forall (λ m, ¬ msgPanics m) (pending (msgs s)) →
   Forall (λ e, ¬ errPanics e) (pending (errs s)) →
   ∃ trace s', run l trace s = Some s' ∧ quiet trace ∧
               crashed s' = None ∧ shutdown s' = Returned ∧
               writtenMsgs (written s') = enqueued (msgs s) ∧
               writtenErrs (written s') = enqueued (errs s)).
Proof.
  intros Hnew _ Hreach.
  pose proof (reachable_engineInv _ _ _ _ l _ Hnew Hreach) as Hinv.
  pose proof Hinv as (Hm & He & _ & _ & _ & _ & _ & _ & Hlog & _).
  destruct Hm as (_ & Henqm & _). destruct He as (_ & Henqe & _).
  split_and!; try done.
  - eapply Forall_impl; [done|]. apply rendered_faithful.
  - intros who caller c'. apply produce_closed_panics.
  - intros _ Hr. exact (engineInv_returned _ _ _ Hinv Hr).
  - intros Hcr Hph Hokm Hoke.
    destruct (shutdown_completes _ _ _ Hinv Hcr Hph Hokm Hoke)
      as (trace & s' & Hrun & Hq & Hcr' & Hph').
    pose proof (engineInv_run _ _ _ _ _ Hinv Hrun) as Hinv'.
    destruct (engineInv_returned _ _ _ Hinv' Hph') as (_&_&_&_&_&_& Hwm & Hwe).
    destruct (run_enqueued _ _ _ _ Hrun Hcr') as [Hem Hee].
    destruct Hq as [Hqm Hqe]. rewrite Hqm, app_nil_r in Hem.
    rewrite Hqe, app_nil_r in Hee.
    exists trace, s'. split_and!; try done; congruence.
Qed.

Lemma demo_built :
  NewLogrus maxElems64 demoConfig logrus.OutStdout = Returns demoBuilt ∧
  handle demoBuilt = Some demoLogger.
Proof. split; reflexivity. Qed.

Lemma demo_reachable : reachable demoLogger (started demoBuilt) demoFinal.
Proof. exists demoTrace. vm_compute. reflexivity. Qed.

Lemma shutdown_drains_every_record_witness :
  shutdown demoFinal = Returned ∧
  enqueued (msgs demoFinal)
  = (writtenMsgs (written demoFinal) ++ pending (msgs demoFinal))%list ∧
  enqueued (errs demoFinal)
  = (writtenErrs (written demoFinal) ++ pending (errs demoFinal))%list ∧
  Forall (faithful demoLogger) (written demoFinal) ∧
  (∀ who caller c', targetClosed c' demoFinal = true →
     produce who caller c' demoFinal = Panics "send on closed channel") ∧
  (crashed demoFinal = None → shutdown demoFinal = Returned →
     drain (msgs demoFinal) = Exited ∧ drain (errs demoFinal) = Exited ∧
     gochan.closed (msgCh demoFinal) = true ∧
     gochan.closed (errCh demoFinal) = true ∧
     gochan.qbuf (msgCh demoFinal) = [] ∧ gochan.qbuf (errCh demoFinal) = [] ∧
     writtenMsgs (written demoFinal) = enqueued (msgs demoFinal) ∧
     writtenErrs (written demoFinal) = enqueued (errs demoFinal)) ∧
  (crashed demoFinal = None → shutdown demoFinal ≠ Returned →
   Forall (λ m, ¬ msgPanics m) (pending (msgs demoFinal)) →
   Forall (λ e, ¬ errPanics e) (pending (errs demoFinal)) →
   ∃ trace s', run demoLogger trace demoFinal = Some s' ∧ quiet trace ∧
               crashed s' = None ∧ shutdown s' = Returned ∧
               writtenMsgs (written s') = enqueued (msgs demoFinal) ∧
               writtenErrs (written s') = enqueued (errs demoFinal)).
Proof.
  split; [reflexivity|].
  apply (shutdown_drains_every_record maxElems64 demoConfig logrus.OutStdout
           demoBuilt demoLogger demoFinal).
  - reflexivity.
  - reflexivity.
  - exists demoTrace. vm_compute. reflexivity.
Defined.

(** Against C1 as the spec words it: both sends complete before the
    shutdown signal, the first record is of panic level, and the record
    behind it never reaches the writer.  The message loop dies in the
    writer's panic with the second record still buffered; while the process
    dies its deferred [wg.Done()] lets the closure return, and no step of
    any goroutine writes another message. *)
Lemma panic_record_loses_later_records :
  NewLogrus maxElems64 demoConfig logrus.OutStdout = Returns demoBuilt ∧
  handle demoBuilt = Some demoLogger ∧
  run demoLogger panicTrace (started demoBuilt) = Some panicCrash ∧
  payload <$> enqueued (msgs panicCrash)
  = [loggerdto.NewMsg demoCaller demoCtx loggerenum.PanicLvl "last words" ∅;
     loggerdto.NewMsg demoCaller demoCtx loggerenum.InfoLvl "after" ∅] ∧
  payload <$> writtenMsgs (written panicCrash)
  = [loggerdto.NewMsg demoCaller demoCtx loggerenum.PanicLvl "last words" ∅] ∧
  payload <$> gochan.qbuf (msgCh panicCrash)
  = [loggerdto.NewMsg demoCaller demoCtx loggerenum.InfoLvl "after" ∅] ∧
  crashed panicCrash = Some logrus.panicValue ∧
  (∀ a, exec demoLogger a panicCrash = None) ∧
  runDying demoLogger panicDying panicCrash = Some panicEnd ∧
  shutdown panicEnd = Returned ∧
  payload <$> gochan.qbuf (msgCh panicEnd)
  = [loggerdto.NewMsg demoCaller demoCtx loggerenum.InfoLvl "after" ∅] ∧
  (∀ dtrace s', runDying demoLogger dtrace panicCrash = Some s' →
     writtenMsgs (written s') = writtenMsgs (written panicCrash)).
Proof.
  split_and!; try (vm_compute; reflexivity).
  intros dtrace s'. apply dead_loop_writes_nothing.
  - right. eexists. vm_compute. reflexivity.
  - vm_compute. reflexivity.
Qed.


(** The end-to-end test of the spec: the writer receives the three
    messages in call order, then the error, each exactly once. *)
Example demo_writer_calls :
  (λ call, (logrus.lc_Level call, logrus.lc_Message call))
    <$> writerCalls (written demoFinal)
  = [(logrus.InfoLevel, "one"); (logrus.InfoLevel, "two");
     (logrus.InfoLevel, "three"); (logrus.ErrorLevel, "boom")].
Proof. vm_compute. reflexivity. Qed.


(** * Further properties *)

(** ** Levels, formats and the configured logger *)

Lemma getLevel_debug_iff (level : string) :
  getLevel level = logrus.DebugLevel ↔ level ∉ namedLevels.
Proof.
  unfold getLevel, namedLevels.
  destruct (decide (level = loggerenum.InfoLvl)) as [->|H1];
    [split; [done | intros Hnot; exfalso; apply Hnot; in_calls]|].
  destruct (decide (level = loggerenum.WarningLvl)) as [->|H2];
    [split; [done | intros Hnot; exfalso; apply Hnot; in_calls]|].
  destruct (decide (level = loggerenum.ErrorLvl)) as [->|H3];
    [split; [done | intros Hnot; exfalso; apply Hnot; in_calls]|].
  destruct (decide (level = loggerenum.FatalLvl)) as [->|H4];
    [split; [done | intros Hnot; exfalso; apply Hnot; in_calls]|].
  destruct (decide (level = loggerenum.PanicLvl)) as [->|H5];
    [split; [done | intros Hnot; exfalso; apply Hnot; in_calls]|].
  split; [|done]. intros _ Hin.
  repeat (apply elem_of_cons in Hin as [Hin|Hin]; [done|]).
  by apply elem_of_nil in Hin.
Qed.

Lemma getLevel_not_trace (level : string) : getLevel level ≠ logrus.TraceLevel.
Proof. unfold getLevel. by repeat destruct (decide _). Qed.

Lemma getFormat_text_iff (formatter : string) :
  getFormat formatter = logrus.TextFormatter ↔ formatter = loggerenum.TextFormat.
Proof. unfold getFormat. by destruct (decide _). Qed.

(** X1.  The logger inside the handle that [NewLogrus] returns is set up
    from the configuration alone: its level is debug exactly when the
    configured name is none of info, warning, error, fatal, panic (so an
    unknown or misspelt name silently means debug) and is never trace, its
    formatter is the text one exactly for the name text and JSON for
    anything else, its sink is the one passed in, and the context keys are
    the configured ones. *)
Theorem NewLogrus_configures_logger (maxElems : Z)
    (cfg : loggerconfig.Config) (output : logrus.Output) (c : constructed)
    (l : Logrus) :
  NewLogrus maxElems cfg output = Returns c →
  handle c = Some l →
  (logrus.lg_Level (logger l) = logrus.DebugLevel
   ↔ loggerconfig.Level cfg ∉ ["info"; "warning"; "error"; "fatal"; "panic"]) ∧
  logrus.lg_Level (logger l) ≠ logrus.TraceLevel ∧
  (logrus.lg_Formatter (logger l) = logrus.TextFormatter
   ↔ loggerconfig.Formatter cfg = "text") ∧
  (logrus.lg_Formatter (logger l) ≠ logrus.TextFormatter →
   logrus.lg_Formatter (logger l) = logrus.JSONFormatter) ∧
  logrus.lg_Out (logger l) = output ∧
  contextExtraFields l = loggerconfig.ContextExtraFields cfg.
Proof.
  unfold NewLogrus.
  destruct (gochan.makechan _ _) as [m| |]; [|done..].
  destruct (gochan.makechan _ _) as [e| |]; [|done..].
  intros [= <-]. cbn. intros [= <-]. cbn.
  split_and!; try done.
  - apply getLevel_debug_iff.
  - apply getLevel_not_trace.
  - apply getFormat_text_iff.
  - by destruct (getFormat _).
Qed.

Lemma NewLogrus_configures_logger_witness :
  let l := demoLogger in
  (logrus.lg_Level (logger l) = logrus.DebugLevel
   ↔ loggerconfig.Level demoConfig
     ∉ ["info"; "warning"; "error"; "fatal"; "panic"]) ∧
  logrus.lg_Level (logger l) ≠ logrus.TraceLevel ∧
  (logrus.lg_Formatter (logger l) = logrus.TextFormatter
   ↔ loggerconfig.Formatter demoConfig = "text") ∧
  (logrus.lg_Formatter (logger l) ≠ logrus.TextFormatter →
   logrus.lg_Formatter (logger l) = logrus.JSONFormatter) ∧
  logrus.lg_Out (logger l) = logrus.OutStdout ∧
  contextExtraFields l = loggerconfig.ContextExtraFields demoConfig.
Proof.
  apply (NewLogrus_configures_logger maxElems64 demoConfig logrus.OutStdout
           demoBuilt demoLogger); reflexivity.
Defined.

Lemma getLevel_of_msgMethod (f : msgMethod) :
  getLevel (msgMethodLevel f) = msgMethodSeverity f.
Proof. by destruct f. Qed.

Lemma getLevel_of_errMethod (f : errMethod) :
  getLevel (errMethodLevel f) = errMethodSeverity f.
Proof. by destruct f. Qed.

Lemma callMsgMethod_send (who : producer) (caller : GoFields) (f : msgMethod)
    (s : engine) (ctx : Context) (msg : string) (fields : GoFields) :
  callMsgMethod who caller f s ctx msg fields
  = sendMsg who (loggerdto.NewMsg caller ctx (msgMethodLevel f) msg fields) s.
Proof. by destruct f. Qed.

Lemma callErrMethod_send (who : producer) (caller : GoFields) (f : errMethod)
    (s : engine) (ctx : Context) (err : error) (fields : GoFields) :
  callErrMethod who caller f s ctx err fields
  = match sendErr who
            (loggerdto.NewErr caller ctx (errMethodLevel f) err fields) s with
    | Returns s' => Returns (s', match f with MLog _ => [] | _ => [err] end)
    | Panics reason => Panics reason
    | Blocks => Blocks
    end.
Proof.
  destruct f; cbn;
    unfold Debug, Info, Warning, Error, Fatal, Panic, Log, thenReturn;
    by destruct (sendErr _ _ _).
Qed.

(** X2.  A message-form call that returns has appended exactly one record
    to the message queue's history and touched neither the error queue nor
    the writer; when the drain loop handles that record the writer gets the
    caller's text unchanged at the method's own level: debug, info, warn,
    error, fatal, panic for the six fixed methods, and for [LogMsg] the
    level its name maps to. *)
Theorem message_forms_reach_writer (l : Logrus) (who : producer)
    (caller : GoFields) (f : msgMethod) (s s' : engine) (ctx : Context)
    (msg : string) (fields : GoFields) :
  callMsgMethod who caller f s ctx msg fields = Returns s' →
  ∃ r call,
    enqueued (msgs s')
    = (enqueued (msgs s) ++ [{| sender := who; payload := r |}])%list ∧
    errs s' = errs s ∧ written s' = written s ∧
    loggerdto.msg_Ctx r = ctx ∧ loggerdto.msg_Fields r = fields ∧
    loggerdto.msg_CallerFields r = caller ∧
    handleMessage l r = Returns call ∧
    logrus.lc_Level call = msgMethodSeverity f ∧
    logrus.lc_Message call = msg.
Proof.
  rewrite callMsgMethod_send. unfold sendMsg.
  destruct (enqueue _ _ _) as [p| |] eqn:Hsend; [|done..].
  intros [= <-]. eexists _, _. split; [exact (enqueue_returns _ _ _ _ Hsend)|].
  cbn. split_and!; try done. apply getLevel_of_msgMethod.
Qed.

Lemma message_forms_reach_writer_witness :
  ∃ r call,
    enqueued (msgs (default roomy (run demoLogger [infoMsg "hi"] roomy)))
    = (enqueued (msgs roomy) ++ [{| sender := 1%nat; payload := r |}])%list ∧
    errs (default roomy (run demoLogger [infoMsg "hi"] roomy)) = errs roomy ∧
    written (default roomy (run demoLogger [infoMsg "hi"] roomy))
    = written roomy ∧
    loggerdto.msg_Ctx r = demoCtx ∧ loggerdto.msg_Fields r = ∅ ∧
    loggerdto.msg_CallerFields r = demoCaller ∧
    handleMessage demoLogger r = Returns call ∧
    logrus.lc_Level call = logrus.InfoLevel ∧
    logrus.lc_Message call = "hi".
Proof.
  apply (message_forms_reach_writer demoLogger 1%nat demoCaller MInfoMsg roomy
           (default roomy (run demoLogger [infoMsg "hi"] roomy))
           demoCtx "hi" ∅).
  reflexivity.
Defined.

(** X3.  An error-form call that returns has appended exactly one record
    to the error queue's history and touched neither the message queue nor
    the writer; when the drain loop handles that record, a non-nil error
    reaches the writer as its [Error()] text at the method's own level, and
    a nil error makes the loop body panic before the writer is called. *)
Theorem error_forms_reach_writer (l : Logrus) (who : producer)
    (caller : GoFields) (f : errMethod) (s s' : engine) (ctx : Context)
    (err : error) (fields : GoFields) (results : list error) :
  callErrMethod who caller f s ctx err fields = Returns (s', results) →
  ∃ r,
    enqueued (errs s')
    = (enqueued (errs s) ++ [{| sender := who; payload := r |}])%list ∧
    msgs s' = msgs s ∧ written s' = written s ∧
    loggerdto.err_Ctx r = ctx ∧ loggerdto.err_Fields r = fields ∧
    loggerdto.err_CallerFields r = caller ∧
    match err with
    | Some v =>
        ∃ call, handleError l r = Returns call ∧
                logrus.lc_Level call = errMethodSeverity f ∧
                logrus.lc_Message call = err_text v
    | None =>
        handleError l r
        = Panics "invalid memory address or nil pointer dereference"
    end.
Proof.
  rewrite callErrMethod_send. unfold sendErr.
  destruct (enqueue _ _ _) as [p| |] eqn:Hsend; [|done..].
  intros [= <- <-]. eexists. split; [exact (enqueue_returns _ _ _ _ Hsend)|].
  cbn. split_and!; try done.
  destruct err as [v|]; [|done].
  eexists. unfold handleError. cbn. split_and!; try done.
  apply getLevel_of_errMethod.
Qed.

Lemma error_forms_reach_writer_witness :
  ∃ r,
    enqueued (errs afterError)
    = (enqueued (errs roomy) ++ [{| sender := 1%nat; payload := r |}])%list ∧
    msgs afterError = msgs roomy ∧ written afterError = written roomy ∧
    loggerdto.err_Ctx r = Background ∧ loggerdto.err_Fields r = ∅ ∧
    loggerdto.err_CallerFields r = ∅ ∧
    ∃ call, handleError demoLogger r = Returns call ∧
            logrus.lc_Level call = logrus.ErrorLevel ∧
            logrus.lc_Message call = "boom".
Proof.
  apply (error_forms_reach_writer demoLogger 1%nat ∅ MError roomy afterError
           Background boom ∅ [boom]).
  reflexivity.
Defined.

(** ** More on the fields *)

Lemma fieldsFromContext_lookup (l : Logrus) (ctx : Context) (k : string) :
  fieldsFromContext l ctx !! k
  = if bool_decide (k ∈ contextExtraFields l) && negb (is_nil (ctx k))
    then Some (ctx k) else None.
Proof.
  unfold fieldsFromContext. by rewrite fieldsFromContext_fold, lookup_empty.
Qed.

Lemma is_nil_false (v : any) : is_nil v = false ↔ v ≠ any_nil.
Proof. by destruct v. Qed.

(** X4.  Only the configured keys count, not their order or repetition:
    two engines whose key lists have the same members extract the same
    field map from every context; in particular listing a key twice
    changes nothing, and an engine without configured keys extracts
    nothing. *)
Theorem fieldsFromContext_keys_as_set (l1 l2 : Logrus) (ctx : Context) :
  (∀ k, k ∈ contextExtraFields l1 ↔ k ∈ contextExtraFields l2) →
  fieldsFromContext l1 ctx = fieldsFromContext l2 ctx.
Proof.
  intros Hsame. apply map_eq. intros k. rewrite !fieldsFromContext_lookup.
  by rewrite (bool_decide_ext _ _ (Hsame k)).
Qed.

Lemma fieldsFromContext_keys_as_set_witness :
  fieldsFromContext
    {| logger := logrus.New; contextExtraFields := ["request_id"; "user"] |}
    demoCtx
  = fieldsFromContext
      {| logger := logrus.New;
         contextExtraFields := ["user"; "request_id"; "user"] |}
      demoCtx.
Proof.
  apply (fieldsFromContext_keys_as_set
           {| logger := logrus.New; contextExtraFields := ["request_id"; "user"] |}
           {| logger := logrus.New;
              contextExtraFields := ["user"; "request_id"; "user"] |}
           demoCtx).
  intros k. cbn. rewrite !elem_of_cons, !elem_of_nil. tauto.
Defined.

(** X5.  The field map handed to the writer has exactly the keys of its
    three sources: a key is present if and only if the call site has it,
    or it is a configured key with a non-nil context value, or the caller
    supplied it.  No key is dropped and none is invented, for message
    records and for error records alike. *)
Theorem merged_fields_keys (l : Logrus) (k : string) :
  (∀ m : loggerdto.MsgDto,
     is_Some (logrus.Data (msgEntry l m) !! k)
     ↔ is_Some (loggerdto.msg_CallerFields m !! k)
       ∨ (k ∈ contextExtraFields l ∧ loggerdto.msg_Ctx m k ≠ any_nil)
       ∨ is_Some (loggerdto.msg_Fields m !! k)) ∧
  (∀ e : loggerdto.ErrDto,
     is_Some (logrus.Data (errEntry l e) !! k)
     ↔ is_Some (loggerdto.err_CallerFields e !! k)
       ∨ (k ∈ contextExtraFields l ∧ loggerdto.err_Ctx e k ≠ any_nil)
       ∨ is_Some (loggerdto.err_Fields e !! k)).
Proof.
  assert (∀ (ctx : Context) (callSite explicit : GoFields),
            is_Some (byPrecedence l ctx callSite explicit k)
            ↔ is_Some (callSite !! k)
              ∨ (k ∈ contextExtraFields l ∧ ctx k ≠ any_nil)
              ∨ is_Some (explicit !! k)) as Hkeys.
  { intros ctx callSite explicit. unfold byPrecedence.
    destruct (callSite !! k) as [v|]; [split; [by left | by eexists]|].
    destruct (bool_decide (k ∈ contextExtraFields l)) eqn:Hin; cbn.
    - apply bool_decide_eq_true_1 in Hin.
      destruct (is_nil (ctx k)) eqn:Hnil; cbn.
      + split; [by right; right|].
        intros [[? Hn]|[[_ Hne]|Hx]]; [done| |done].
        apply is_nil_false in Hne. congruence.
      + split; [|by eexists]. intros _. right. left.
        split; [done|]. by apply is_nil_false.
    - apply bool_decide_eq_false_1 in Hin. split; [by right; right|].
      intros [[? Hn]|[[Hk _]|Hx]]; done. }
  split.
  - intros m. unfold msgEntry, logrus.WithFields, logrus.NewEntry. cbn.
    rewrite merged_lookup. apply Hkeys.
  - intros e. unfold errEntry, logrus.WithFields, logrus.NewEntry. cbn.
    rewrite merged_lookup. apply Hkeys.
Qed.

(** ** More on the output resolver *)

Section ResolverFailures.
Context {W : Type} `{os.System W}.

Lemma getOutput_file_branch (output logsDir : string)
    (st : W * list os.syscall) :
  output ≠ "stdout" → output ≠ "stderr" → output ≠ "/dev/null" →
  output ≠ "" →
  getOutput output logsDir st = getOutputFile logsDir st.
Proof.
  intros Hout Herr Hnull Hempty. unfold getOutput, getOutputFile.
  rewrite (decide_False (P := output = loggerenum.Stdout)) by done.
  rewrite (decide_False (P := output = loggerenum.Stderr)) by done.
  rewrite (bool_decide_eq_false_2 (output = loggerenum.DevNull)) by done.
  by rewrite (bool_decide_eq_false_2 (output = "")) by done.
Qed.

(** X6.  Beyond selecting the file branch, the output name has no effect:
    any two names that are not reserved make the resolver issue the same
    system calls and return the same file or error, in every state of the
    system. *)
Theorem getOutput_name_irrelevant (output1 output2 logsDir : string)
    (st : W * list os.syscall) :
  output1 ≠ "stdout" → output1 ≠ "stderr" → output1 ≠ "/dev/null" →
  output1 ≠ "" →
  output2 ≠ "stdout" → output2 ≠ "stderr" → output2 ≠ "/dev/null" →
  output2 ≠ "" →
  getOutput output1 logsDir st = getOutput output2 logsDir st.
Proof.
  intros. by rewrite !getOutput_file_branch.
Qed.

(** X7.  When the working directory cannot be determined, the resolver
    returns that error with a nil file and stops: the directory is not
    read, nothing is created and no file is opened. *)
Theorem getOutput_getwd_fails (output logsDir dir : string) (e : error_value)
    (w w1 : W) (calls : list os.syscall) :
  output ≠ "stdout" → output ≠ "stderr" → output ≠ "/dev/null" →
  output ≠ "" →
  os.sys_Getwd w = ((dir, Some e), w1) →
  getOutput output logsDir (w, calls)
  = ((None, Some e), (w1, calls ++ [os.SysGetwd])%list).
Proof.
  intros Hout Herr Hnull Hempty Hwd.
  rewrite getOutput_file_branch by done. unfold getOutputFile.
  cbv [mbind os.IO_bind os.bind os.Getwd os.issue os.ret]. by rewrite Hwd.
Qed.

(** X8.  When reading the log directory fails for another reason than its
    absence (lack of permission, say), the resolver returns that error with
    a nil file: it neither tries to create the directory nor opens the
    file. *)
Theorem getOutput_readdir_fails (output logsDir rootDir : string)
    (e : error_value) (w w1 w2 : W) (calls : list os.syscall) :
  output ≠ "stdout" → output ≠ "stderr" → output ≠ "/dev/null" →
  output ≠ "" →
  os.sys_Getwd w = ((rootDir, None), w1) →
  os.sys_ReadDir (filepath.Dir (logFilePath rootDir logsDir)) w1
    = (Some e, w2) →
  err_not_exist e = false →
  getOutput output logsDir (w, calls)
  = ((None, Some e),
     (w2, (calls ++ [os.SysGetwd]) ++
          [os.SysReadDir (filepath.Dir (logFilePath rootDir logsDir))])%list).
Proof.
  intros Hout Herr Hnull Hempty Hwd Hrd Hne.
  rewrite getOutput_file_branch by done. unfold getOutputFile.
  cbv [mbind os.IO_bind os.bind os.Getwd os.ReadDir os.issue os.ret].
  rewrite Hwd, Hrd. cbn. by rewrite Hne.
Qed.

(** X9.  When the log directory is absent and creating it fails, the
    resolver returns the error of the creation with a nil file and does
    not open the file. *)
Theorem getOutput_mkdir_fails (output logsDir rootDir : string)
    (e e' : error_value) (w w1 w2 w3 : W) (calls : list os.syscall) :
  output ≠ "stdout" → output ≠ "stderr" → output ≠ "/dev/null" →
  output ≠ "" →
  os.sys_Getwd w = ((rootDir, None), w1) →
  os.sys_ReadDir (filepath.Dir (logFilePath rootDir logsDir)) w1
    = (Some e, w2) →
  err_not_exist e = true →
  os.sys_MkdirAll (filepath.Dir (logFilePath rootDir logsDir)) os.perm_0755 w2
    = (Some e', w3) →
  getOutput output logsDir (w, calls)
  = ((None, Some e'),
     (w3, ((calls ++ [os.SysGetwd]) ++
           [os.SysReadDir (filepath.Dir (logFilePath rootDir logsDir))]) ++
          [os.SysMkdirAll (filepath.Dir (logFilePath rootDir logsDir))
             os.perm_0755])%list).
Proof.
  intros Hout Herr Hnull Hempty Hwd Hrd Hne Hmk.
  rewrite getOutput_file_branch by done. unfold getOutputFile.
  cbv [mbind os.IO_bind os.bind os.Getwd os.ReadDir os.MkdirAll os.issue
       os.ret].
  rewrite Hwd, Hrd. cbn. rewrite Hne. by rewrite Hmk.
Qed.

(** X10.  [NewOutput] resolves the configured output with the configured
    logs directory and adds no system call of its own; on an error it
    returns neither a file nor a release action, otherwise the release
    action closes the very file it returns. *)
Theorem NewOutput_wraps_getOutput (cfg : loggerconfig.Config)
    (st : W * list os.syscall) :
  let '((out, release, e), st') := NewOutput cfg st in
  let '((f, e0), st0) :=
    getOutput (loggerconfig.Output cfg) (loggerconfig.LogsDir cfg) st in
  st' = st0 ∧ e = e0 ∧
  (is_Some e → out = None ∧ release = None) ∧
  (e = None → out = f ∧ release = f).
Proof.
  unfold NewOutput, loggerconfig.GetLoggerOutput, loggerconfig.GetLoggerLogsDir.
  cbv [mbind os.IO_bind os.bind os.ret].
  destruct (getOutput _ _ st) as [[f [e0|]] st0]; cbn.
  - split_and!; first [done | by intros [? ?]].
  - split_and!; first [done | by intros [? ?]].
Qed.
End ResolverFailures.

Lemma getOutput_name_irrelevant_witness :
  getOutput "logs/out" "var/log" (simos.fresh, [])
  = getOutput "app" "var/log" (simos.fresh, []).
Proof.
  apply (getOutput_name_irrelevant "logs/out" "app" "var/log" (simos.fresh, []));
    discriminate.
Defined.

Lemma getOutput_getwd_fails_witness :
  let w := flakyos.denying (λ c, bool_decide (c = os.SysGetwd)) in
  getOutput "file" "var/log" (w, [])
  = ((None, Some flakyos.EACCES), (w, [os.SysGetwd])).
Proof.
  apply (getOutput_getwd_fails "file" "var/log" "" flakyos.EACCES
           (flakyos.denying (λ c, bool_decide (c = os.SysGetwd)))
           (flakyos.denying (λ c, bool_decide (c = os.SysGetwd))) []);
    first [discriminate | reflexivity].
Defined.

Lemma getOutput_readdir_fails_witness :
  let w := flakyos.denying
             (λ c, bool_decide (c = os.SysReadDir "/srv/app/var/log")) in
  getOutput "file" "var/log" (w, [])
  = ((None, Some flakyos.EACCES),
     (w, [os.SysGetwd; os.SysReadDir "/srv/app/var/log"])).
Proof.
  apply (getOutput_readdir_fails "file" "var/log" "/srv/app" flakyos.EACCES
           (flakyos.denying
              (λ c, bool_decide (c = os.SysReadDir "/srv/app/var/log")))
           (flakyos.denying
              (λ c, bool_decide (c = os.SysReadDir "/srv/app/var/log")))
           (flakyos.denying
              (λ c, bool_decide (c = os.SysReadDir "/srv/app/var/log")))
           []);
    first [discriminate | reflexivity].
Defined.

Lemma getOutput_mkdir_fails_witness :
  let w := flakyos.denying
             (λ c, bool_decide (c = os.SysMkdirAll "/srv/app/var/log"
                                      os.perm_0755)) in
  getOutput "file" "var/log" (w, [])
  = ((None, Some flakyos.EACCES),
     (w, [os.SysGetwd; os.SysReadDir "/srv/app/var/log";
          os.SysMkdirAll "/srv/app/var/log" os.perm_0755])).
Proof.
  apply (getOutput_mkdir_fails "file" "var/log" "/srv/app"
           simos.ENOENT flakyos.EACCES
           (flakyos.denying
              (λ c, bool_decide (c = os.SysMkdirAll "/srv/app/var/log"
                                       os.perm_0755)))
           (flakyos.denying
              (λ c, bool_decide (c = os.SysMkdirAll "/srv/app/var/log"
                                       os.perm_0755)))
           (flakyos.denying
              (λ c, bool_decide (c = os.SysMkdirAll "/srv/app/var/log"
                                       os.perm_0755)))
           (flakyos.denying
              (λ c, bool_decide (c = os.SysMkdirAll "/srv/app/var/log"
                                       os.perm_0755)))
           []);
    first [discriminate | reflexivity].
Defined.

Section ResolverTarget.
Context {W : Type} `{os.System W}.

(** X11.  With a rooted working directory, a resolution that succeeds has
    opened, as its last call, the file app.log joined to the resolved logs
    directory, with create, append and read-write; this is so whatever the
    logs directory looks like, a name with a dot in it included. *)
Theorem getOutput_opens_app_log (output logsDir rootDir : string) (w w1 : W) :
  output ≠ "stdout" → output ≠ "stderr" → output ≠ "/dev/null" →
  output ≠ "" →
  os.sys_Getwd w = ((rootDir, None), w1) →
  filepath.rooted rootDir = true →
  let '((f, e), (_, calls)) := getOutput output logsDir (w, []) in
  e = None →
  last calls
  = Some (os.SysOpenFile
            (filepath.Join [filepath.Join [rootDir; logsDir]; "app.log"])
            (Z.lor (Z.lor os.O_CREATE os.O_APPEND) os.O_RDWR) os.perm_0666).
Proof.
  intros Hout Herr Hnull Hempty Hwd Hroot.
  rewrite getOutput_file_branch by done. unfold getOutputFile.
  cbv [mbind os.IO_bind os.bind os.Getwd os.ReadDir os.MkdirAll os.OpenFile
       os.issue os.ret].
  rewrite Hwd. rewrite (logFilePath_always_appends _ _ Hroot).
  destruct (os.sys_ReadDir _ w1) as [[e1|] w2]; cbn.
  - destruct (err_not_exist e1); [|done].
    destruct (os.sys_MkdirAll _ _ w2) as [[e2|] w3]; [done|].
    by destruct (os.sys_OpenFile _ _ _ w3) as [[f3 [e3|]] w4].
  - by destruct (os.sys_OpenFile _ _ _ w2) as [[f3 [e3|]] w4].
Qed.
End ResolverTarget.

Lemma getOutput_opens_app_log_witness :
  filepath.rooted "/srv/app" = true ∧
  last (getOutput "file" "var/log/custom.log" (simos.fresh, [])).2.2
  = Some (os.SysOpenFile
            (filepath.Join
               [filepath.Join ["/srv/app"; "var/log/custom.log"]; "app.log"])
            (Z.lor (Z.lor os.O_CREATE os.O_APPEND) os.O_RDWR) os.perm_0666).
Proof.
  split; [reflexivity|].
  exact (getOutput_opens_app_log "file" "var/log/custom.log" "/srv/app"
           simos.fresh simos.fresh
           ltac:(discriminate) ltac:(discriminate) ltac:(discriminate)
           ltac:(discriminate) eq_refl eq_refl eq_refl).
Defined.

(** ** More on the goroutines *)

(** X12.  The WaitGroup counter always equals the number of drain
    goroutines that have not left their loop: it stays between 0 and 2,
    [wg.Done()] never drives it below zero, and it is zero exactly when
    both loops have exited. *)
Theorem waitgroup_counts_live_loops (maxElems : Z)
    (cfg : loggerconfig.Config) (output : logrus.Output) (c : constructed)
    (l : Logrus) (s : engine) :
  NewLogrus maxElems cfg output = Returns c →
  handle c = Some l →
  reachable l (started c) s →
  wg s = (live (drain (msgs s)) + live (drain (errs s)))%Z ∧
  (0 ≤ wg s ≤ 2)%Z ∧
  (wg s = 0 ↔ drain (msgs s) = Exited ∧ drain (errs s) = Exited).
Proof.
  intros Hnew _ Hreach.
  pose proof (reachable_engineInv _ _ _ _ l _ Hnew Hreach)
    as (_ & _ & _ & _ & Hwg & _).
  pose proof (live_bounds (drain (msgs s))).
  pose proof (live_bounds (drain (errs s))).
  split_and!; try lia. rewrite Hwg. split.
  - intros Hz. by destruct (drain (msgs s)), (drain (errs s)).
  - by intros [-> ->].
Qed.

Lemma waitgroup_counts_live_loops_witness :
  wg demoFull = 2 ∧
  wg demoFinal = (live (drain (msgs demoFinal)) + live (drain (errs demoFinal)))%Z ∧
  (0 ≤ wg demoFinal ≤ 2)%Z ∧
  (wg demoFinal = 0
   ↔ drain (msgs demoFinal) = Exited ∧ drain (errs demoFinal) = Exited).
Proof.
  split; [reflexivity|].
  apply (waitgroup_counts_live_loops maxElems64 demoConfig logrus.OutStdout
           demoBuilt demoLogger demoFinal).
  - reflexivity.
  - reflexivity.
  - exists demoTrace. vm_compute. reflexivity.
Defined.



(** X14.  The shutdown closure is not idempotent: once it has returned,
    calling it again panics on its first statement with close of closed
    channel, which ends the process; nothing is written or enqueued by the
    second call. *)
Theorem second_shutdown_panics (maxElems : Z)
    (cfg : loggerconfig.Config) (output : logrus.Output) (c : constructed)
    (l : Logrus) (s : engine) :
  NewLogrus maxElems cfg output = Returns c →
  handle c = Some l →
  reachable l (started c) s →
  crashed s = None →
  shutdown s = Returned →
  cancel s = Panics "close of closed channel" ∧
  ∃ s', exec l Cancel s = Some s' ∧
        crashed s' = Some "close of closed channel" ∧
        written s' = written s ∧ msgs s' = msgs s ∧ errs s' = errs s ∧
        ∀ a, exec l a s' = None.
Proof.
  intros Hnew _ Hreach Hcr Hph.
  pose proof (reachable_engineInv _ _ _ _ l _ Hnew Hreach)
    as (_ & _ & _ & _ & _ & Hclm & _).
  assert (gochan.closed (msgCh s) = true) as Hcl.
  { apply Hclm. by rewrite Hph. }
  assert (cancel s = Panics "close of closed channel") as Hpanic.
  { unfold cancel, gochan.closechan. by rewrite Hph, Hcl. }
  split; [done|]. eexists. split.
  - unfold exec. rewrite Hcr. cbn [step]. by rewrite Hpanic.
  - by split_and!.
Qed.

Lemma second_shutdown_panics_witness :
  crashed demoFinal = None ∧ shutdown demoFinal = Returned ∧
  cancel demoFinal = Panics "close of closed channel" ∧
  ∃ s', exec demoLogger Cancel demoFinal = Some s' ∧
        crashed s' = Some "close of closed channel" ∧
        written s' = written demoFinal ∧ msgs s' = msgs demoFinal ∧
        errs s' = errs demoFinal ∧
        ∀ a, exec demoLogger a s' = None.
Proof.
  split; [reflexivity|]. split; [reflexivity|].
  apply (second_shutdown_panics maxElems64 demoConfig logrus.OutStdout
           demoBuilt demoLogger demoFinal).
  - reflexivity.
  - reflexivity.
  - exists demoTrace. vm_compute. reflexivity.
  - reflexivity.
  - reflexivity.
Defined.

(** X15.  A producer never writes: whatever a logging call does (complete,
    or panic on a closed queue), the writer's log, the WaitGroup counter and
    the shutdown phase are as before, and a message-form call leaves the
    error queue alone while an error-form call leaves the message queue
    alone. *)
Theorem producers_never_write (l : Logrus) (who : producer)
    (caller : GoFields) (c : call) (s s' : engine) :
  exec l (Produce who caller c) s = Some s' →
  written s' = written s ∧ wg s' = wg s ∧ shutdown s' = shutdown s ∧
  match c with
  | CallMsg _ _ _ _ => errs s' = errs s
  | CallErr _ _ _ _ => msgs s' = msgs s
  end.
Proof.
  unfold exec. destruct (crashed s); [done|]. cbn [step].
  rewrite produce_send.
  destruct c as [f ctx msg fields|f ctx err fields];
    unfold sendMsg, sendErr; destruct (enqueue _ _ _); try done;
    by intros [= <-].
Qed.

Lemma producers_never_write_witness :
  written afterError = written roomy ∧ wg afterError = wg roomy ∧
  shutdown afterError = shutdown roomy ∧ msgs afterError = msgs roomy.
Proof.
  apply (producers_never_write demoLogger 1%nat ∅
           (CallErr MError Background boom ∅) roomy afterError).
  reflexivity.
Defined.

Lemma drainStep_closed {A} (h : A → outcome logrus.LogCall)
    (p p' : pipeline A) (ev : drainEvent A) :
  drainStep h p = Returns (p', ev) →
  gochan.closed (ch p') = gochan.closed (ch p).
Proof.
  unfold drainStep, gochan.chanrecv. destruct (drain p) as [| |x| |held].
  - destruct (gochan.qbuf (ch p)); [destruct (gochan.closed (ch p)) eqn:Hcl|];
      intros [= <- <-]; cbn; by rewrite ?Hcl.
  - destruct (gochan.closed (ch p)) eqn:Hcl; [|done]. by intros [= <- <-].
  - destruct (h (payload x)); [|done..]. by intros [= <- <-].
  - done.
  - done.
Qed.

Lemma step_closed (l : Logrus) (a : action) (s s' : engine) :
  step l a s = Returns s' →
  (gochan.closed (msgCh s) = true →
     gochan.closed (msgCh s') = true ∧ enqueued (msgs s') = enqueued (msgs s)) ∧
  (gochan.closed (errCh s) = true →
     gochan.closed (errCh s') = true ∧ enqueued (errs s') = enqueued (errs s)).
Proof.
  unfold msgCh, errCh.
  destruct a as [who caller c| | |]; cbn [step].
  - rewrite produce_send. destruct c; unfold sendMsg, sendErr, enqueue,
      gochan.chansend.
    + destruct (gochan.closed (ch (msgs s))) eqn:Hcl; [done|].
      destruct (gochan.recvq _); [|destruct (bool_decide _); [|done]];
        intros [= <-]; cbn; by split.
    + destruct (gochan.closed (ch (errs s))) eqn:Hcl; [done|].
      destruct (gochan.recvq _); [|destruct (bool_decide _); [|done]];
        intros [= <-]; cbn; by split.
  - unfold handleMessages.
    destruct (drainStep _ _) as [[p ev]|reason|] eqn:Hstep; [| |done].
    + pose proof (drainStep_closed _ _ _ _ Hstep) as Hcl.
      pose proof (drainStep_enqueued _ _ _ _ Hstep) as Henq.
      destruct ev; try destruct (logrus.panicsAfterWrite _);
        intros [= <-]; cbn; rewrite ?Hcl, ?Henq; by split.
    + intros [= <-]; cbn; by split.
  - unfold handleErrors.
    destruct (drainStep _ _) as [[p ev]|reason|] eqn:Hstep; [| |done].
    + pose proof (drainStep_closed _ _ _ _ Hstep) as Hcl.
      pose proof (drainStep_enqueued _ _ _ _ Hstep) as Henq.
      destruct ev; try destruct (logrus.panicsAfterWrite _);
        intros [= <-]; cbn; rewrite ?Hcl, ?Henq; by split.
    + intros [= <-]; cbn; by split.
  - unfold cancel, gochan.closechan, msgCh, errCh.
    destruct (shutdown s).
    + destruct (gochan.closed (ch (msgs s))) eqn:Hcl; [done|].
      intros [= <-]; cbn; by split.
    + destruct (gochan.closed (ch (errs s))) eqn:Hcl; [done|].
      intros [= <-]; cbn; by split.
    + destruct (decide (wg s = 0)); [|done]. intros [= <-]; cbn; by split.
    + destruct (gochan.closed (ch (msgs s))) eqn:Hcl; [done|].
      intros [= <-]; cbn; by split.
Qed.

(** X17.  A closed queue is never reopened and takes no more records:
    once a queue is closed, in every later state of every run it is still
    closed and its send history is what it was at that moment. *)
Theorem closed_queue_is_final (l : Logrus) (trace : list action)
    (s s' : engine) :
  run l trace s = Some s' →
  (gochan.closed (msgCh s) = true →
     gochan.closed (msgCh s') = true ∧ enqueued (msgs s') = enqueued (msgs s)) ∧
  (gochan.closed (errCh s) = true →
     gochan.closed (errCh s') = true ∧ enqueued (errs s') = enqueued (errs s)).
Proof.
  revert s. induction trace as [|a rest IH]; intros s; cbn [run].
  - by intros [= <-].
  - destruct (exec l a s) as [s1|] eqn:Hexec; [|done]. intros Hrun.
    destruct (IH _ Hrun) as [Hm He].
    assert ((gochan.closed (msgCh s) = true →
               gochan.closed (msgCh s1) = true ∧
               enqueued (msgs s1) = enqueued (msgs s)) ∧
            (gochan.closed (errCh s) = true →
               gochan.closed (errCh s1) = true ∧
               enqueued (errs s1) = enqueued (errs s))) as [Hm1 He1].
    { unfold exec in Hexec. destruct (crashed s); [done|].
      destruct (step l a s) as [s2|reason|] eqn:Hstep; [| |done].
      - injection Hexec as ->. by eapply step_closed.
      - by injection Hexec as <-. }
    split.
    + intros Hcl. destruct (Hm1 Hcl) as [Hcl1 Heq1].
      destruct (Hm Hcl1) as [Hcl' Heq']. split; [done|congruence].
    + intros Hcl. destruct (He1 Hcl) as [Hcl1 Heq1].
      destruct (He Hcl1) as [Hcl' Heq']. split; [done|congruence].
Qed.

(** The sample run, cut after the closure's first statement. *)
Lemma closed_queue_is_final_witness :
  let s := default demoFull (run demoLogger (take 6 demoTrace) (started demoBuilt)) in
  gochan.closed (msgCh s) = true ∧
  gochan.closed (msgCh demoFinal) = true ∧
  enqueued (msgs demoFinal) = enqueued (msgs s).
Proof.
  split; [reflexivity|].
  apply (closed_queue_is_final demoLogger (drop 6 demoTrace)
           (default demoFull (run demoLogger (take 6 demoTrace) (started demoBuilt)))
           demoFinal).
  - vm_compute. reflexivity.
  - reflexivity.
Defined.

(** X18.  With buffer capacity 0 the queues are unbuffered: nothing is
    ever buffered, and a logging call completes only as a hand-over to the
    drain goroutine that is parked in its receive, which finds itself in
    the loop body with exactly that record. *)
Theorem unbuffered_hands_over (maxElems : Z)
    (cfg : loggerconfig.Config) (output : logrus.Output) (c : constructed)
    (l : Logrus) (s : engine) :
  NewLogrus maxElems cfg output = Returns c →
  handle c = Some l →
  loggerconfig.BufferCapacity cfg = 0 →
  reachable l (started c) s →
  gochan.qbuf (msgCh s) = [] ∧ gochan.qbuf (errCh s) = [] ∧
  (∀ who caller f ctx msg fields s',
     callMsgMethod who caller f s ctx msg fields = Returns s' →
     drain (msgs s) = Parked ∧
     drain (msgs s')
     = Handling {| sender := who;
                   payload := loggerdto.NewMsg caller ctx (msgMethodLevel f)
                                msg fields |} ∧
     gochan.qbuf (msgCh s') = []) ∧
  (∀ who caller f ctx err fields s' results,
     callErrMethod who caller f s ctx err fields = Returns (s', results) →
     drain (errs s) = Parked ∧
     drain (errs s')
     = Handling {| sender := who;
                   payload := loggerdto.NewErr caller ctx (errMethodLevel f)
                                err fields |} ∧
     gochan.qbuf (errCh s') = []).
Proof.
  intros Hnew _ Hzero Hreach.
  pose proof (reachable_engineInv _ _ _ _ l _ Hnew Hreach)
    as (Hm & He & Hcm & Hce & _).
  unfold loggerconfig.GetBufferCapacity in *. rewrite Hzero in Hcm, Hce.
  destruct Hm as (Hbm & _ & Hrm & _). destruct He as (Hbe & _ & Hre & _).
  unfold msgCh, errCh, gochan.qcount in *. rewrite Hcm in Hbm. rewrite Hce in Hbe.
  assert (gochan.qbuf (ch (msgs s)) = []) as Hqm.
  { destruct (gochan.qbuf (ch (msgs s))); [done|]. cbn in Hbm. lia. }
  assert (gochan.qbuf (ch (errs s)) = []) as Hqe.
  { destruct (gochan.qbuf (ch (errs s))); [done|]. cbn in Hbe. lia. }
  split_and!; try done.
  - intros who caller f ctx msg fields s'. rewrite callMsgMethod_send.
    unfold sendMsg, enqueue, gochan.chansend, gochan.qcount.
    rewrite Hqm, Hcm. cbn.
    destruct (gochan.closed (ch (msgs s))); [done|].
    destruct (gochan.recvq (ch (msgs s))) eqn:Hq; [|done].
    intros [= <-]. cbn. by destruct (Hrm eq_refl).
  - intros who caller f ctx err fields s' results. rewrite callErrMethod_send.
    unfold sendErr, enqueue, gochan.chansend, gochan.qcount.
    rewrite Hqe, Hce. cbn.
    destruct (gochan.closed (ch (errs s))); [done|].
    destruct (gochan.recvq (ch (errs s))) eqn:Hq; [|done].
    intros [= <- <-]. cbn. by destruct (Hre eq_refl).
Qed.

(** X19.  An error record without an error is never given to the writer:
    the loop body calls [Error()] on it and panics before the writer is
    called.  In every state of a run, and in every state the process goes
    through while it dies of a panic, each error delivery is for a record
    that has an error; and when the error loop holds a record without one,
    its next step ends the process with that record in hand and nothing
    written for it. *)
Theorem nil_error_never_written (maxElems : Z)
    (cfg : loggerconfig.Config) (output : logrus.Output) (c : constructed)
    (l : Logrus) (s : engine) (dtrace : list dyingAction) (s' : engine) :
  NewLogrus maxElems cfg output = Returns c →
  handle c = Some l →
  reachable l (started c) s →
  runDying l dtrace s = Some s' →
  (∀ e call, ErrDelivery e call ∈ written s' →
     loggerdto.err_Err (payload e) ≠ None) ∧
  (∀ x, crashed s = None → drain (errs s) = Handling x →
     loggerdto.err_Err (payload x) = None →
     ∃ s1, exec l DrainErrors s = Some s1 ∧
           crashed s1
           = Some "invalid memory address or nil pointer dereference" ∧
           drain (errs s1) = Panicked (Some x) ∧
           written s1 = written s).
Proof.
  intros Hnew _ Hreach Hdying.
  pose proof (reachable_engineInv _ _ _ _ l _ Hnew Hreach) as Hinv.
  pose proof Hinv as (_ & _ & _ & _ & _ & _ & _ & _ & Hlog & _).
  split.
  - intros e call Hin.
    pose proof (runDying_rendered _ _ _ _ Hlog Hdying) as Hlog'.
    rewrite Forall_forall in Hlog'. specialize (Hlog' _ Hin). cbn in Hlog'.
    unfold handleError in Hlog'. intros Hnil. by rewrite Hnil in Hlog'.
  - intros x Hcr Hd Hnil.
    destruct (handleErrors_nil l s Hcr x Hd Hnil)
      as (s1 & Hexec & Hcr1 & Hd1 & Hw1 & _).
    by exists s1.
Qed.

(** An engine after [Error(ctx, nil, nil)] whose error loop has taken the
    record, and the deferred call that follows the panic. *)
Lemma nil_error_never_written_witness :
  let sent := [Produce 1%nat demoCaller (CallErr MError demoCtx None ∅);
               DrainErrors] in
  let s := default demoFull (run demoLogger sent (started demoBuilt)) in
  let s' := default demoFull
              (runDying demoLogger [Deferred]
                 (default demoFull (exec demoLogger DrainErrors s))) in
  drain (errs s')= Exited ∧ written s' = [] ∧
  (∀ e call, ErrDelivery e call ∈ written s →
     loggerdto.err_Err (payload e) ≠ None) ∧
  (∀ x, crashed s = None → drain (errs s) = Handling x →
     loggerdto.err_Err (payload x) = None →
     ∃ s1, exec demoLogger DrainErrors s = Some s1 ∧
           crashed s1
           = Some "invalid memory address or nil pointer dereference" ∧
           drain (errs s1) = Panicked (Some x) ∧
           written s1 = written s).
Proof.
  split; [reflexivity|]. split; [reflexivity|].
  apply (nil_error_never_written maxElems64 demoConfig logrus.OutStdout
           demoBuilt demoLogger
           (default demoFull
              (run demoLogger
                 [Produce 1%nat demoCaller (CallErr MError demoCtx None ∅);
                  DrainErrors]
                 (started demoBuilt)))
           []).
  - reflexivity.
  - reflexivity.
  - exists [Produce 1%nat demoCaller (CallErr MError demoCtx None ∅);
            DrainErrors].
    vm_compute. reflexivity.
  - reflexivity.
Defined.

Lemma unbuffered_hands_over_witness :
  (∃ s', callMsgMethod 1%nat demoCaller MInfoMsg unbufferedParked demoCtx
           "hi" ∅ = Returns s') ∧
  gochan.qbuf (msgCh unbufferedParked) = [] ∧
  gochan.qbuf (errCh unbufferedParked) = [] ∧
  (∀ who caller f ctx msg fields s',
     callMsgMethod who caller f unbufferedParked ctx msg fields = Returns s' →
     drain (msgs unbufferedParked) = Parked ∧
     drain (msgs s')
     = Handling {| sender := who;
                   payload := loggerdto.NewMsg caller ctx (msgMethodLevel f)
                                msg fields |} ∧
     gochan.qbuf (msgCh s') = []) ∧
  (∀ who caller f ctx err fields s' results,
     callErrMethod who caller f unbufferedParked ctx err fields
       = Returns (s', results) →
     drain (errs unbufferedParked) = Parked ∧
     drain (errs s')
     = Handling {| sender := who;
                   payload := loggerdto.NewErr caller ctx (errMethodLevel f)
                                err fields |} ∧
     gochan.qbuf (errCh s') = []).
Proof.
  split; [eexists; reflexivity|].
  apply (unbuffered_hands_over maxElems64 unbufferedConfig logrus.OutStderr
           unbufferedBuilt unbufferedLogger unbufferedParked).
  - reflexivity.
  - reflexivity.
  - reflexivity.
  - exists [DrainMessages]. vm_compute. reflexivity.
Defined.

Lemma untouched_run (l : Logrus) (trace : list action) (s s' : engine) :
  untouched s → forallb isProduce trace = true →
  run l trace s = Some s' → untouched s'.
Proof.
  revert s. induction trace as [|a rest IH]; intros s Hun Hall; cbn [run].
  - by intros [= <-].
  - cbn in Hall. apply andb_true_iff in Hall as [Ha Hrest].
    destruct (exec l a s) as [s1|] eqn:Hexec; [|done].
    apply IH; [|done]. clear IH.
    destruct Hun as (Hdm & Hde & Hw & Hcr & Hqm & Hqe & Hcm & Hce).
    destruct a as [who caller c| | |]; try done.
    unfold exec in Hexec. rewrite Hcr in Hexec. cbn [step] in Hexec.
    rewrite produce_send in Hexec. unfold msgCh, errCh in *.
    destruct c as [f ctx msg fields|f ctx err fields];
      unfold sendMsg, sendErr, enqueue, gochan.chansend in Hexec;
      rewrite ?Hcm, ?Hce, ?Hqm, ?Hqe in Hexec;
      (destruct (bool_decide _); [|done]); injection Hexec as <-;
      by unfold untouched.
Qed.

(** X20.  Backpressure without consumers: as long as only producers have
    run since construction, each queue holds exactly the records sent to
    it, in order, never more than the configured capacity, and once a
    queue holds capacity-many records every further call on it blocks. *)
Theorem capacity_many_calls_complete (maxElems : Z)
    (cfg : loggerconfig.Config) (output : logrus.Output) (c : constructed)
    (l : Logrus) (trace : list action) (s : engine) :
  NewLogrus maxElems cfg output = Returns c →
  handle c = Some l →
  forallb isProduce trace = true →
  run l trace (started c) = Some s →
  let cap := loggerconfig.BufferCapacity cfg in
  gochan.qbuf (msgCh s) = producedMsgs trace ∧
  gochan.qbuf (errCh s) = producedErrs trace ∧
  (Z.of_nat (length (producedMsgs trace)) ≤ cap)%Z ∧
  (Z.of_nat (length (producedErrs trace)) ≤ cap)%Z ∧
  (Z.of_nat (length (producedMsgs trace)) = cap →
   ∀ who caller f ctx msg fields,
     callMsgMethod who caller f s ctx msg fields = Blocks) ∧
  (Z.of_nat (length (producedErrs trace)) = cap →
   ∀ who caller f ctx err fields,
     callErrMethod who caller f s ctx err fields = Blocks).
Proof.
  intros Hnew _ Hall Hrun cap. subst cap.
  assert (reachable l (started c) s) as Hreach by by exists trace.
  pose proof (reachable_engineInv _ _ _ _ l _ Hnew Hreach)
    as (Hm & He & Hcm & Hce & _).
  destruct (NewLogrus_started _ _ _ _ Hnew) as (_ & Hstart & _).
  assert (untouched s) as (Hdm & Hde & Hw & Hcr & Hqm & Hqe & Hclm & Hcle).
  { eapply untouched_run; [|done..]. by rewrite Hstart. }
  destruct (run_enqueued _ _ _ _ Hrun Hcr) as [Hem Hee].
  rewrite Hstart in Hem, Hee. cbn in Hem, Hee.
  destruct Hm as (Hbm & Henqm & _). destruct He as (Hbe & Henqe & _).
  unfold pending, msgCh, errCh, gochan.qcount,
    loggerconfig.GetBufferCapacity in *.
  rewrite Hw, Hdm in Henqm. rewrite Hw, Hde in Henqe. cbn in Henqm, Henqe.
  assert (gochan.qbuf (ch (msgs s)) = producedMsgs trace) as Hbufm by congruence.
  assert (gochan.qbuf (ch (errs s)) = producedErrs trace) as Hbufe by congruence.
  rewrite Hbufm, Hcm in Hbm. rewrite Hbufe, Hce in Hbe.
  split_and!; try done.
  - intros Hfull who caller f ctx msg fields. rewrite callMsgMethod_send.
    unfold sendMsg, enqueue, gochan.chansend, gochan.qcount.
    rewrite Hclm, Hqm, Hbufm, Hcm.
    rewrite bool_decide_eq_false_2 by lia. done.
  - intros Hfull who caller f ctx err fields. rewrite callErrMethod_send.
    unfold sendErr, enqueue, gochan.chansend, gochan.qcount.
    rewrite Hcle, Hqe, Hbufe, Hce.
    rewrite bool_decide_eq_false_2 by lia. done.
Qed.

Lemma capacity_many_calls_complete_witness :
  Z.of_nat (length (producedMsgs demoFill)) = 2 ∧
  let cap := loggerconfig.BufferCapacity demoConfig in
  gochan.qbuf (msgCh demoFull) = producedMsgs demoFill ∧
  gochan.qbuf (errCh demoFull) = producedErrs demoFill ∧
  (Z.of_nat (length (producedMsgs demoFill)) ≤ cap)%Z ∧
  (Z.of_nat (length (producedErrs demoFill)) ≤ cap)%Z ∧
  (Z.of_nat (length (producedMsgs demoFill)) = cap →
   ∀ who caller f ctx msg fields,
     callMsgMethod who caller f demoFull ctx msg fields = Blocks) ∧
  (Z.of_nat (length (producedErrs demoFill)) = cap →
   ∀ who caller f ctx err fields,
     callErrMethod who caller f demoFull ctx err fields = Blocks).
Proof.
  split; [reflexivity|].
  apply (capacity_many_calls_complete maxElems64 demoConfig logrus.OutStdout
           demoBuilt demoLogger demoFill demoFull).
  - reflexivity.
  - reflexivity.
  - reflexivity.
  - vm_compute. reflexivity.
Defined.

(** X21.  A message of panic level ends the process from inside the drain
    goroutine: the loop step that handles it gives it to the writer, with
    its own text and fields, and then the writer's panic stops everything;
    the loop does not go back to its receive.  While the process dies the
    deferred [wg.Done()] of the loop still lowers the counter by one, and
    whatever the other goroutines do, the message loop writes nothing
    more. *)
Theorem panic_record_ends_the_process (maxElems : Z)
    (cfg : loggerconfig.Config) (output : logrus.Output) (c : constructed)
    (l : Logrus) (s : engine) (x : tagged loggerdto.MsgDto) :
  NewLogrus maxElems cfg output = Returns c →
  handle c = Some l →
  reachable l (started c) s →
  crashed s = None →
  drain (msgs s) = Handling x →
  msgPanics x →
  ∃ s1 call,
    exec l DrainMessages s = Some s1 ∧
    written s1 = (written s ++ [MsgDelivery x call])%list ∧
    faithful l (MsgDelivery x call) ∧
    crashed s1 = Some logrus.panicValue ∧
    drain (msgs s1) = Panicked None ∧
    wg s1 = wg s ∧
    (∀ a, exec l a s1 = None) ∧
    (∃ s2, execDying l Deferred s1 = Some s2 ∧ drain (msgs s2) = Exited ∧
           wg s2 = (wg s - 1)%Z ∧ written s2 = written s1) ∧
    (∀ dtrace s', runDying l dtrace s1 = Some s' →
       writtenMsgs (written s') = writtenMsgs (written s1)).
Proof.
  intros Hnew _ Hreach Hcr Hd Hx.
  pose proof (reachable_engineInv _ _ _ _ l _ Hnew Hreach)
    as ((_ & _ & Hrq & _) & _).
  destruct (handleMessages_dies l s Hcr x Hd Hx)
    as (s1 & call & Hexec & Hcr1 & Hd1 & Hw1 & Hcall & Hch1 & _ & _ & Hwg1).
  exists s1, call. split_and!; try done.
  - by apply (rendered_faithful l (MsgDelivery x call)).
  - intros a. unfold exec. by rewrite Hcr1.
  - unfold execDying, deferred. rewrite Hcr1, Hd1. eexists. split; [done|].
    cbn. by rewrite Hwg1.
  - intros dtrace s'. apply dead_loop_writes_nothing.
    + right. by exists None.
    + unfold msgCh. rewrite Hch1. apply not_true_false. intros Hq.
      destruct (Hrq Hq) as [Hp _]. by rewrite Hd in Hp.
Qed.

(** The state in which the message loop holds the panic message of
    [stuckTrace]. *)
Lemma panic_record_ends_the_process_witness :
  let s := default demoFull (run demoLogger (take 3 stuckTrace)
                               (started demoBuilt)) in
  let x := {| sender := 1%nat;
              payload := loggerdto.NewMsg demoCaller demoCtx
                           loggerenum.PanicLvl "last words" ∅ |} in
  ∃ s1 call,
    exec demoLogger DrainMessages s = Some s1 ∧
    written s1 = (written s ++ [MsgDelivery x call])%list ∧
    faithful demoLogger (MsgDelivery x call) ∧
    crashed s1 = Some logrus.panicValue ∧
    drain (msgs s1) = Panicked None ∧
    wg s1 = wg s ∧
    (∀ a, exec demoLogger a s1 = None) ∧
    (∃ s2, execDying demoLogger Deferred s1 = Some s2 ∧
           drain (msgs s2) = Exited ∧
           wg s2 = (wg s - 1)%Z ∧ written s2 = written s1) ∧
    (∀ dtrace s', runDying demoLogger dtrace s1 = Some s' →
       writtenMsgs (written s') = writtenMsgs (written s1)).
Proof.
  apply (panic_record_ends_the_process maxElems64 demoConfig
           logrus.OutStdout demoBuilt demoLogger
           (default demoFull (run demoLogger (take 3 stuckTrace)
                                (started demoBuilt)))
           {| sender := 1%nat;
              payload := loggerdto.NewMsg demoCaller demoCtx
                           loggerenum.PanicLvl "last words" ∅ |}).
  - reflexivity.
  - reflexivity.
  - exists (take 3 stuckTrace). vm_compute. reflexivity.
  - reflexivity.
  - reflexivity.
  - reflexivity.
Defined.
